(** * rockphypy: effective-medium and granular-medium models

    A shallow embedding of the elastic-average primitives ([VRH], [HS]),
    the shape-factor evaluator ([PQ_vectorize]), the self-consistent
    solvers ([Berrymann_sc], [OConnell_Budiansky], [OConnell_Budiansky_fl])
    and further models of [src/rockphypy/EM.py] and [src/rockphypy/GM.py].

    The modules [EM] and [GM] compute over exact real arithmetic: rounding
    is not modelled there, and an operation that has no finite real value (a
    division by zero, a root or an inverse cosine outside its domain) yields
    an error instead of a number.  The module [F64] embeds [VRH], [HS] and
    [OConnell_Budiansky] once more, over binary64 numbers, for the properties
    that rounding decides. *)

From Stdlib Require Import String Bool Arith ZArith Lia List Reals Lra Psatz.
From Stdlib Require PrimFloat FloatOps FloatAxioms SpecFloat.
Import ListNotations.
Open Scope R_scope.

(** ** Values that may fail *)

(** [ZeroDivision]: Python raises [ZeroDivisionError] on its own numbers;
    numpy stores [inf] or [nan] under a "divide by zero" warning.
    [NotANumber]: numpy's [nan] from [sqrt], [arccos] or a fractional power
    outside the domain.  [ShapeMismatch]: numpy's [ValueError] for operands
    whose shapes do not agree.  [Uninitialised]: an entry of an [np.empty]
    array that was never assigned. *)
Inductive error : Type :=
| ZeroDivision
| NotANumber
| ShapeMismatch
| Uninitialised.

Inductive res (A : Type) : Type :=
| Ok (a : A)
| Err (e : error).
Arguments Ok {A} a.
Arguments Err {A} e.

Definition bind {A B : Type} (m : res A) (k : A -> res B) : res B :=
  match m with
  | Ok a => k a
  | Err e => Err e
  end.

Notation "x <- m ;; k" := (bind m (fun x => k))
  (at level 61, m at next level, right associativity).

Notation "' pat <- m ;; k" :=
  (bind m (fun x => match x with pat => k end))
  (at level 61, pat pattern, m at next level, right associativity).

Definition lift2 {A B C : Type} (f : A -> B -> C) (x : res A) (y : res B)
  : res C :=
  a <- x ;; b <- y ;; Ok (f a b).

Definition is_ok {A : Type} (m : res A) : bool :=
  match m with Ok _ => true | Err _ => false end.

(** ** Floating-point expressions, read as reals *)

Definition float : Type := res R.

Definition fin (x : R) : float := Ok x.
Coercion fin : R >-> float.

Definition Reqb (x y : R) : bool := if Req_dec_T x y then true else false.
Definition Rltb (x y : R) : bool := if Rlt_dec x y then true else false.

Definition fadd : float -> float -> float := lift2 Rplus.
Definition fsub : float -> float -> float := lift2 Rminus.
Definition fneg (x : float) : float := a <- x ;; Ok (- a).
Definition fmul : float -> float -> float := lift2 Rmult.

Definition fdiv (x y : float) : float :=
  a <- x ;; b <- y ;; if Reqb b 0 then Err ZeroDivision else Ok (a / b).

(** [x ** -1] *)
Definition finv (x : float) : float := fdiv 1 x.

(** [x ** 2] *)
Definition fsqr (x : float) : float := fmul x x.

(** [x ** y] for a positive, non-integral exponent [y] ([3.0/2.0], [0.5]):
    [nan] on a negative base. *)
Definition fpow (x : float) (y : R) : float :=
  a <- x ;;
  if Rltb a 0 then Err NotANumber
  else if Reqb a 0 then Ok 0
  else Ok (Rpower a y).

Definition fsqrt (x : float) : float :=
  a <- x ;; if Rltb a 0 then Err NotANumber else Ok (sqrt a).

Definition farccos (x : float) : float :=
  a <- x ;;
  if Rltb a (-1) then Err NotANumber
  else if Rltb 1 a then Err NotANumber
  else Ok (acos a).

Definition fcosh (x : float) : float := a <- x ;; Ok (cosh a).

Declare Scope pyfloat_scope.
Delimit Scope pyfloat_scope with fl.
Bind Scope pyfloat_scope with float.
Notation "x + y" := (fadd x y) : pyfloat_scope.
Notation "x - y" := (fsub x y) : pyfloat_scope.
Notation "x * y" := (fmul x y) : pyfloat_scope.
Notation "x / y" := (fdiv x y) : pyfloat_scope.
Notation "- x" := (fneg x) : pyfloat_scope.

(** ** numpy arrays

    A one-dimensional array of finite numbers is a [list R]; an array that
    holds computed values is a [list float], each entry failing on its own,
    as numpy computes element by element. *)

Module Np.

(** [np.dot(a, b)] of two one-dimensional arrays. *)
Fixpoint dot (a b : list float) : float :=
  match a, b with
  | [], [] => 0
  | x :: a', y :: b' => (x * y + dot a' b')%fl
  | _, _ => Err ShapeMismatch
  end.

(** [np.sum(a)] *)
Fixpoint sum (a : list float) : float :=
  match a with
  | [] => 0
  | x :: a' => (x + sum a')%fl
  end.

(** [a.mean()]: the sum over the number of entries, [nan] on an empty
    array. *)
Definition mean (a : list R) : float :=
  (sum (map fin a) / INR (length a))%fl.

(** Boolean masks [a == c], [a < c], [a > c]. *)
Definition eq_mask (a : list R) (c : R) : list bool :=
  map (fun x => Reqb x c) a.
Definition lt_mask (a : list R) (c : R) : list bool :=
  map (fun x => Rltb x c) a.
Definition gt_mask (a : list R) (c : R) : list bool :=
  map (fun x => Rltb c x) a.

(** [a[mask]]: the entries selected by the mask, in order. *)
Fixpoint select {A : Type} (a : list A) (mask : list bool) : list A :=
  match a, mask with
  | x :: a', b :: mask' =>
      if b then x :: select a' mask' else select a' mask'
  | _, _ => []
  end.

(** [a[mask] = c]: every selected entry becomes the scalar [c]. *)
Fixpoint put_scalar {A : Type} (a : list A) (mask : list bool) (c : A)
  : list A :=
  match a, mask with
  | x :: a', b :: mask' => (if b then c else x) :: put_scalar a' mask' c
  | _, _ => a
  end.

(** [a[mask] = vals]: the selected entries are replaced, in order, by the
    entries of [vals], which has one entry for each selected position. *)
Fixpoint put {A : Type} (a : list A) (mask : list bool) (vals : list A)
  : list A :=
  match a, mask with
  | x :: a', b :: mask' =>
      if b then
        match vals with
        | v :: vals' => v :: put a' mask' vals'
        | [] => x :: put a' mask' []
        end
      else x :: put a' mask' vals
  | _, _ => a
  end.

(** [np.empty(n)]: [n] entries that hold nothing yet. *)
Definition empty (n : nat) : list float := repeat (Err Uninitialised) n.

(** Arrays live in a store and Python names hold references to them: an
    assignment [b = a] makes [b] the same reference, and an indexed
    assignment through either name changes the one array. *)
Definition ref : Type := nat.
Definition heap : Type := ref -> list R.

Definition store (h : heap) (r : ref) (v : list R) : heap :=
  fun r' => if Nat.eqb r' r then v else h r'.

(** [target[mask] = c] on the array that [target] refers to. *)
Definition setitem_scalar (h : heap) (target : ref) (mask : list bool)
    (c : R) : heap :=
  store h target (put_scalar (h target) mask c).

(** Entry by entry operations on two arrays of one shape. *)
Definition zip_with {A B C : Type} (f : A -> B -> C) (a : list A)
    (b : list B) : list C :=
  map (fun ab => f (fst ab) (snd ab)) (combine a b).

(** A two-dimensional array is the list of its rows; [np.dot(a, b)] of a
    one-dimensional [a] and a two-dimensional [b] sums over the entries of
    [a] and the rows of [b], which must be as many as the entries of [a]:
    numpy raises [ValueError] otherwise. *)
Fixpoint dot_rows (a : list float) (b : list (list float)) (ncols : nat)
  : list float :=
  match a, b with
  | x :: a', row :: b' =>
      zip_with fadd (map (fmul x) row) (dot_rows a' b' ncols)
  | _, _ => repeat (fin 0) ncols
  end.

Definition dot_matrix (a : list float) (b : list (list float))
  : res (list float) :=
  if Nat.eqb (length a) (length b)
  then Ok (dot_rows a b (length (hd [] b)))
  else Err ShapeMismatch.

End Np.

(** ** Elastic-average primitives *)

Module EM.

(** [VRH(volumes, M)]: the triple [(M_v, M_r, M_h)]. *)
Definition VRH (volumes M : list R) : float * float * float :=
  let M_v := Np.dot (map fin volumes) (map fin M) in
  let M_r := finv (Np.dot (map fin volumes) (map (fun m : R => (1 / m)%fl) M)) in
  let M_h := (0.5 * (M_r + M_v))%fl in
  (M_v, M_r, M_h).

(** [HS(f, K1, K2, G1, G2, bound='upper')] on Python numbers: a division by
    zero raises, so the call yields a pair or an error. *)
Definition HS (f K1 K2 G1 G2 : R) (bound : string) : res (R * R) :=
  if String.eqb bound "upper" then
    K <- (K1 + (1 - f) / (finv (K2 - K1) + f * finv (K1 + 4 * G1 / 3)))%fl ;;
    Temp <- ((K1 + 2 * G1) / (5 * G1 * (K1 + 4 * G1 / 3)))%fl ;;
    G <- (G1 + (1 - f) / (finv (G2 - G1) + 2 * f * Temp))%fl ;;
    Ok (K, G)
  else
    K <- (K2 + f / (finv (K1 - K2) + (1 - f) * finv (K2 + 4 * G2 / 3)))%fl ;;
    Temp <- ((K2 + 2 * G2) / (5 * G2 * (K2 + 4 * G2 / 3)))%fl ;;
    G <- (G2 + f / (finv (G1 - G2) + 2 * (1 - f) * Temp))%fl ;;
    Ok (K, G).

(** [OConnell_Budiansky(K0, G0, crd)] on Python numbers. *)
Definition OConnell_Budiansky (K0 G0 crd : R) : res (R * R) :=
  nu0 <- ((3 * K0 - 2 * G0) / (6 * K0 + 2 * G0))%fl ;;
  nu_eff <- (nu0 * (1 - 16 * crd / 9))%fl ;;
  K_dry <- (K0 * (1 - 16 * (1 - fsqr nu_eff) * crd
                        / (9 * (1 - 2 * nu_eff))))%fl ;;
  G_dry <- (G0 * (1 - 32 * (1 - nu_eff) * (5 - nu_eff) * crd
                        / (45 * (2 - nu_eff))))%fl ;;
  Ok (K_dry, G_dry).

(** *** Shape factors *)

(** The shape integral of an oblate entry ([alpha_ < 1]). *)
Definition theta_oblate (a : R) : float :=
  (a / fpow (1 - fsqr a) (3 / 2)
   * (farccos a - a * fsqrt (1 - fsqr a)))%fl.

(** The shape integral of a prolate entry ([alpha_ > 1]), with the term
    [np.cosh(alpha_)**-1] as the source has it. *)
Definition theta_prolate (a : R) : float :=
  (a / fpow (fsqr a - 1) (3 / 2)
   * (a * fpow (fsqr a - 1) 0.5 - finv (fcosh a)))%fl.

(** Lines 404 to 421 at one position of the arrays: numpy evaluates these
    array expressions entry by entry, the scalars [Km] and [Gm] broadcast. *)
Definition PQ_entry (Km Gm Ki Gi alpha_ : R) (theta : float)
  : float * float :=
  let f := (fsqr alpha_ * (3 * theta - 2) / (1 - fsqr alpha_))%fl in
  let A := (Gi / Gm - 1)%fl in
  let B := ((Ki / Km - Gi / Gm) / 3)%fl in
  let R_ := (Gm / (Km + (4 / 3) * Gm))%fl in
  let F1 := (1 + A * (1.5 * (f + theta)
                     - R_ * (1.5 * f + 2.5 * theta - 4 / 3)))%fl in
  let F2 := (1 + A * (1 + 1.5 * (f + theta) - R_ * (1.5 * f + 2.5 * theta))
             + B * (3 - 4 * R_)
             + A * (A + 3 * B) * (1.5 - 2 * R_)
               * (f + theta - R_ * (f - theta + 2 * fsqr theta)))%fl in
  let F3 := (1 + A * (1 - f - 1.5 * theta + R_ * (f + theta)))%fl in
  let F4 := (1 + (A / 4) * (f + 3 * theta - R_ * (f - theta)))%fl in
  let F5 := (A * (- f + R_ * (f + theta - 4 / 3))
             + B * theta * (3 - 4 * R_))%fl in
  let F6 := (1 + A * (1 + f - R_ * (f + theta))
             + B * (1 - theta) * (3 - 4 * R_))%fl in
  let F7 := (2 + (A / 4) * (3 * f + 9 * theta - R_ * (3 * f + 5 * theta))
             + B * theta * (3 - 4 * R_))%fl in
  let F8 := (A * (1 - 2 * R_ + (f / 2) * (R_ - 1)
                  + (theta / 2) * (5 * R_ - 3))
             + B * (1 - theta) * (3 - 4 * R_))%fl in
  let F9 := (A * ((R_ - 1) * f - R_ * theta)
             + B * theta * (3 - 4 * R_))%fl in
  let Tiijj := (3 * F1 / F2)%fl in
  let Tijij := (Tiijj / 3 + 2 / F3 + 1 / F4
                + (F4 * F5 + F6 * F7 - F8 * F9) / (F2 * F4))%fl in
  let P := (Tiijj / 3)%fl in
  let Q := ((Tijij - P) / 5)%fl in
  (P, Q).

Fixpoint PQ_entries (Km Gm : R) (Ki Gi alpha_ : list R) (theta : list float)
  : list (float * float) :=
  match Ki, Gi, alpha_, theta with
  | k :: Ki', g :: Gi', a :: alpha', t :: theta' =>
      PQ_entry Km Gm k g a t :: PQ_entries Km Gm Ki' Gi' alpha' theta'
  | _, _, _, _ => []
  end.

(** The closed forms written at the entries selected by [alpha == 1]. *)
Definition P_sphere (Km Gm Ki : R) : float :=
  ((Km + 4 * Gm / 3) / (Ki + 4 * Gm / 3))%fl.

Definition kesai (Km Gm : R) : float :=
  (Gm / 6 * (9 * Km + 8 * Gm) / (Km + 2 * Gm))%fl.

Definition Q_sphere (Km Gm Gi : R) : float :=
  ((Gm + kesai Km Gm) / (Gi + kesai Km Gm))%fl.

(** [PQ_vectorize(Km, Gm, Ki, Gi, alpha)].  [Ki] and [Gi] are only read and
    are passed by value; [alpha] is the caller's array, passed by reference.
    The arrays must have [Ki.size] entries each: numpy raises otherwise
    (after line 398 has run). *)
Definition PQ_vectorize (Km Gm : R) (Ki Gi : list R) (alpha : Np.ref)
    (h : Np.heap) : Np.heap * res (list float * list float) :=
  let dim := length Ki in
  let theta := Np.empty dim in
  let alpha_ := alpha in
  let h := Np.setitem_scalar h alpha_ (Np.eq_mask (h alpha) 1) 0.999 in
  if negb (Nat.eqb (length (h alpha)) dim && Nat.eqb (length Gi) dim)
  then (h, Err ShapeMismatch)
  else
    let theta :=
      Np.put theta (Np.lt_mask (h alpha_) 1)
        (map theta_oblate (Np.select (h alpha_) (Np.lt_mask (h alpha_) 1))) in
    let theta :=
      Np.put theta (Np.gt_mask (h alpha_) 1)
        (map theta_prolate (Np.select (h alpha_) (Np.gt_mask (h alpha_) 1))) in
    let PQ := PQ_entries Km Gm Ki Gi (h alpha_) theta in
    let P := map fst PQ in
    let Q := map snd PQ in
    let P :=
      Np.put P (Np.eq_mask (h alpha) 1)
        (map (P_sphere Km Gm) (Np.select Ki (Np.eq_mask (h alpha) 1))) in
    let Q :=
      Np.put Q (Np.eq_mask (h alpha) 1)
        (map (Q_sphere Km Gm) (Np.select Gi (Np.eq_mask (h alpha) 1))) in
    (h, Ok (P, Q)).

(** *** Self-consistent solvers *)

(** [X*(K-K_sc)*P], entry by entry. *)
Fixpoint weighted_contrast (X K : list R) (K_sc : R) (P : list float)
  : list float :=
  match X, K, P with
  | x :: X', k :: K', p :: P' =>
      (x * (k - K_sc) * p)%fl :: weighted_contrast X' K' K_sc P'
  | _, _, _ => []
  end.

(** [Berrymann_func(params, K, G, X, Alpha)]: the list [[eq1, eq2]].  The
    product with [X] needs [X] as long as the other arrays. *)
Definition Berrymann_func (params : R * R) (K G X : list R) (Alpha : Np.ref)
    (h : Np.heap) : Np.heap * res (float * float) :=
  let '(K_sc, G_sc) := params in
  let '(h, PQ) := PQ_vectorize K_sc G_sc K G Alpha h in
  (h,
   '(P, Q) <- PQ ;;
   if negb (Nat.eqb (length X) (length K)) then Err ShapeMismatch
   else
     let eq1 := Np.sum (weighted_contrast X K K_sc P) in
     let eq2 := Np.sum (weighted_contrast X G G_sc Q) in
     Ok (eq1, eq2)).

(** [scipy.optimize.fsolve] is not part of this repository.  A root finder
    takes the residual function and the starting point and reports its last
    iterate together with the integer flag [ier], which is 1 when a solution
    was found.  Called without [full_output], as both solvers call it,
    [fsolve] hands back the iterate alone. *)
Record fsolve_info : Type := { last_x : R * R; ier : Z }.

Definition root_finder : Type :=
  (R * R -> res (float * float)) -> R * R -> fsolve_info.

Definition fsolve (hybrd : root_finder) (func : R * R -> res (float * float))
    (x0 : R * R) : R * R :=
  last_x (hybrd func x0).

(** [Berrymann_sc(K, G, X, Alpha)].  Before it iterates, [fsolve] evaluates
    the residual once at the starting point to check its shape; an exception
    of the residual (arrays of different lengths) leaves [fsolve] and the
    call there.  Whether the residual raises depends on the shapes of the
    arrays alone, not on the trial point (lemma [Berrymann_func_raises]
    below).  Every evaluation leaves the store of that first one, and in that
    store the residual has the values it has in the store of the call (lemmas
    [Berrymann_func_heap] and [Berrymann_func_again] below), so the residual
    handed to the root finder is a function of the trial point alone.  On
    empty arrays the means are [nan] and there is no starting point: the
    model stops there. *)
Definition Berrymann_sc (hybrd : root_finder) (K G X : list R)
    (Alpha : Np.ref) (h : Np.heap) : Np.heap * res (R * R) :=
  let func := fun params => snd (Berrymann_func params K G X Alpha h) in
  match Np.mean K, Np.mean G with
  | Ok K0, Ok G0 =>
      let h' := fst (Berrymann_func (K0, G0) K G X Alpha h) in
      match func (K0, G0) with
      | Err e => (h', Err e)
      | Ok _ =>
          let '(K_sc, G_sc) := fsolve hybrd func (K0, G0) in
          (h', Ok (K_sc, G_sc))
      end
  | Err e, _ | _, Err e => (h, Err e)
  end.

(** [OC_R_funcs(params, crd, nu_0, w)] *)
Definition OC_R_funcs (params : R * R) (crd nu_0 w : R) : float * float :=
  let '(nu_eff, D) := params in
  let eq1 := (45 / 16 * (nu_0 - nu_eff) / (1 - fsqr nu_eff) * (2 - nu_eff)
              / (D * (1 + 3 * nu_0) * (2 - nu_eff) - 2 * (1 - 2 * nu_0))
              - crd)%fl in
  let eq2 := (crd * fsqr D
              - (crd + 9 / 16 * (1 - 2 * nu_eff) / (1 - fsqr nu_0)
                 + 3 * w / (4 * PI)) * D
              + 9 / 16 * (1 - 2 * nu_eff) / (1 - fsqr nu_0))%fl in
  (eq1, eq2).

(** [OConnell_Budiansky_fl(K0, G0, Kfl, crd, alpha)]: [nu0] and [w] are
    computed on the caller's Python numbers, the moduli on the numpy numbers
    that [fsolve] returns. *)
Definition OConnell_Budiansky_fl (hybrd : root_finder)
    (K0 G0 Kfl crd alpha : R) : res (float * float) :=
  nu0 <- ((3 * K0 - 2 * G0) / (6 * K0 + 2 * G0))%fl ;;
  w <- (Kfl / alpha / K0)%fl ;;
  let '(nu_eff, D) :=
    fsolve hybrd (fun params => Ok (OC_R_funcs params crd nu0 w))
      (0.2, 0.9) in
  let K_sat := (K0 * (1 - 16 * (1 - fsqr nu_eff) * crd * D
                          / (9 * (1 - 2 * nu_eff))))%fl in
  let G_sat := (G0 * (1 - 32 / 45 * (1 - nu_eff) * (D + 3 / (2 - nu_eff))
                          * crd))%fl in
  Ok (K_sat, G_sat).

(** *** Further models of [EM.py] *)

(** [VRH(volumes, M)] called with a two-dimensional [M], as [cripor_reuss]
    calls it: the same three lines on arrays of that shape. *)
Definition VRH_2d (volumes : list R) (M : list (list R))
  : res (list float * list float * list float) :=
  M_v <- Np.dot_matrix (map fin volumes) (map (map fin) M) ;;
  d <- Np.dot_matrix (map fin volumes)
         (map (map (fun m : R => (1 / m)%fl)) M) ;;
  let M_r := map finv d in
  let M_h := Np.zip_with (fun r v => (0.5 * (r + v))%fl) M_r M_v in
  Ok (M_v, M_r, M_h).

(** [cripor(K0, G0, phi, phic)] on Python numbers. *)
Definition cripor (K0 G0 phi phic : R) : res (R * R) :=
  K_dry <- (K0 * (1 - phi / phic))%fl ;;
  G_dry <- (G0 * (1 - phi / phic))%fl ;;
  Ok (K_dry, G_dry).

(** [cripor_reuss(M0, Mf, phic, den=False)] called with three numbers, as
    the docstring describes the arguments: the moduli go to [VRH] in the
    place of the volumes and the fractions, as one row of a two-dimensional
    array, in the place of the moduli.  (Called with an array [phic], the
    fractions make an array of three dimensions, which this definition does
    not cover.) *)
Definition cripor_reuss (M0 Mf phic : R) (den : bool) : res (list float) :=
  if negb den then
    '(M_v, M_r, M_h) <- VRH_2d [M0; Mf] [[1 - phic; phic]] ;; Ok M_r
  else
    '(M_v, M_r, M_h) <- VRH_2d [M0; Mf] [[1 - phic; phic]] ;; Ok M_v.

End EM.

(** ** Granular-medium models of [GM.py] *)

Module GM.

(** [hertzmindlin(K0, G0, phic, Cn, sigma, f)] on Python numbers.  The cube
    root is the power [(1/3)]; of a negative base Python makes a complex
    number, which the model has no value for. *)
Definition hertzmindlin (K0 G0 phic Cn sigma f : R) : res (R * R) :=
  sigma <- (sigma / 1000)%fl ;;
  nu <- ((3 * K0 - 2 * G0) / (6 * K0 + 2 * G0))%fl ;;
  K_dry <- fpow (sigma * (fsqr Cn * fsqr (1 - phic) * fsqr G0)
                 / (18 * fsqr PI * fsqr (1 - nu)))%fl (1 / 3) ;;
  G_dry <- ((2 + 3 * f - nu * (1 + 3 * f)) / (5 * (2 - nu))
            * fpow (sigma * (3 * fsqr Cn * fsqr (1 - phic) * fsqr G0)
                    / (2 * fsqr PI * fsqr (1 - nu))) (1 / 3))%fl ;;
  Ok (K_dry, G_dry).

End GM.

(** * The same functions on binary64 numbers

    Python's [float] and numpy's [float64] are IEEE 754 binary64 numbers,
    which Rocq's primitive floats are too: [+], [-], [*], [/] round to
    nearest, ties to even.  This part embeds [VRH], [HS] and
    [OConnell_Budiansky] once more, on those numbers, to see what rounding,
    overflow and the exceptions of Python numbers do to them.

    On Python numbers a division by zero raises [ZeroDivisionError].  The
    powers [x ** -1] and [x ** 2] are C's [pow]; they are taken as the
    rounded reciprocal and the rounded product, [0.0 ** -1] raises
    [ZeroDivisionError] and a finite [x] whose power is infinite raises
    [OverflowError].  On numpy numbers nothing raises: the result is [inf]
    or [nan]. *)

Module F64.
Import PrimFloat.
Local Open Scope float_scope.

Inductive exn : Type := ZeroDivisionError | OverflowError | ValueError.

Inductive py (A : Type) : Type :=
| Return (a : A)
| Raise (e : exn).
Arguments Return {A} a.
Arguments Raise {A} e.

Definition pbind {A B : Type} (m : py A) (k : A -> py B) : py B :=
  match m with
  | Return a => k a
  | Raise e => Raise e
  end.

Notation "x <~ m ;; k" := (pbind m (fun x => k))
  (at level 61, m at next level, right associativity).

Definition returns {A : Type} (m : py A) : bool :=
  match m with Return _ => true | Raise _ => false end.

Definition num (x : float) : py float := Return x.
Coercion num : float >-> py.

(** Operands are evaluated from left to right. *)
Definition plift2 (f : float -> float -> float) (x y : py float)
  : py float :=
  a <~ x ;; b <~ y ;; Return (f a b).

Definition padd : py float -> py float -> py float :=
  plift2 PrimFloat.add.
Definition psub : py float -> py float -> py float :=
  plift2 PrimFloat.sub.
Definition pmul : py float -> py float -> py float :=
  plift2 PrimFloat.mul.

(** [x / y] *)
Definition pdiv (x y : py float) : py float :=
  a <~ x ;; b <~ y ;;
  if PrimFloat.is_zero b then Raise ZeroDivisionError else Return (a / b).

(** [x ** -1] *)
Definition pinv (x : py float) : py float :=
  a <~ x ;;
  if PrimFloat.is_zero a then Raise ZeroDivisionError
  else if PrimFloat.is_infinity (1 / a) then Raise OverflowError
  else Return (1 / a).

(** [x ** 2] *)
Definition psqr (x : py float) : py float :=
  a <~ x ;;
  if PrimFloat.is_infinity (a * a) && negb (PrimFloat.is_infinity a)
  then Raise OverflowError
  else Return (a * a).

Declare Scope py_scope.
Delimit Scope py_scope with py.
Bind Scope py_scope with py.
Notation "x + y" := (padd x y) : py_scope.
Notation "x - y" := (psub x y) : py_scope.
Notation "x * y" := (pmul x y) : py_scope.
Notation "x / y" := (pdiv x y) : py_scope.

(** [np.dot] of two one-dimensional arrays, summed from the left. *)
Fixpoint dot_from (acc : float) (a b : list float) : py float :=
  match a, b with
  | [], [] => Return acc
  | x :: a', y :: b' => dot_from (acc + x * y) a' b'
  | _, _ => Raise ValueError
  end.

Definition dot : list float -> list float -> py float := dot_from 0.

(** [VRH(volumes, M)] on numpy arrays *)
Definition VRH (volumes M : list float) : py (float * float * float) :=
  M_v <~ dot volumes M ;;
  d <~ dot volumes (map (fun m => 1 / m) M) ;;
  let M_r := 1 / d in
  let M_h := 0.5 * (M_r + M_v) in
  Return (M_v, M_r, M_h).

(** [HS(f, K1, K2, G1, G2, bound='upper')] on Python numbers *)
Definition HS (f K1 K2 G1 G2 : float) (bound : string)
  : py (float * float) :=
  if String.eqb bound "upper" then
    K <~ (K1 + (1 - f) / (pinv (K2 - K1) + f * pinv (K1 + 4 * G1 / 3)))%py ;;
    Temp <~ ((K1 + 2 * G1) / (5 * G1 * (K1 + 4 * G1 / 3)))%py ;;
    G <~ (G1 + (1 - f) / (pinv (G2 - G1) + 2 * f * Temp))%py ;;
    Return (K, G)
  else
    K <~ (K2 + f / (pinv (K1 - K2) + (1 - f) * pinv (K2 + 4 * G2 / 3)))%py ;;
    Temp <~ ((K2 + 2 * G2) / (5 * G2 * (K2 + 4 * G2 / 3)))%py ;;
    G <~ (G2 + f / (pinv (G1 - G2) + 2 * (1 - f) * Temp))%py ;;
    Return (K, G).

(** [OConnell_Budiansky(K0, G0, crd)] on Python numbers *)
Definition OConnell_Budiansky (K0 G0 crd : float) : py (float * float) :=
  nu0 <~ ((3 * K0 - 2 * G0) / (6 * K0 + 2 * G0))%py ;;
  nu_eff <~ (nu0 * (1 - 16 * crd / 9))%py ;;
  K_dry <~ (K0 * (1 - 16 * (1 - psqr nu_eff) * crd
                        / (9 * (1 - 2 * nu_eff))))%py ;;
  G_dry <~ (G0 * (1 - 32 * (1 - nu_eff) * (5 - nu_eff) * crd
                        / (45 * (2 - nu_eff))))%py ;;
  Return (K_dry, G_dry).

End F64.

(** * Notions used in the statements *)

(** The dot product of two arrays of numbers, entry by entry. *)
Fixpoint rdot (v m : list R) : R :=
  match v, m with
  | x :: v', y :: m' => x * y + rdot v' m'
  | _, _ => 0
  end.

(** The sum of the entries [f 0 + ... + f (n-1)]. *)
Definition big_sum (n : nat) (f : nat -> R) : R :=
  fold_right Rplus 0 (map f (seq 0 n)).

(** The weighted sum [v_0 * m_0 + ... + v_(N-1) * m_(N-1)]. *)
Definition weighted_sum (v m : list R) : R :=
  big_sum (length v) (fun i => nth i v 0 * nth i m 0).

(** The averages as the specification words them. *)
Definition Voigt (volumes M : list R) : float :=
  fin (weighted_sum volumes M).

Definition Reuss (volumes M : list R) : float :=
  finv (fin (weighted_sum volumes (map (fun m => 1 / m) M))).

Definition Hill (volumes M : list R) : float :=
  ((Voigt volumes M + Reuss volumes M) / 2)%fl.

(** The sum of the entries of an array. *)
Definition rsum (v : list R) : R := fold_right Rplus 0 v.

(** Line 398 on the contents of the array: entries equal to 1 become
    0.999. *)
Definition clamp (a : list R) : list R :=
  Np.put_scalar a (Np.eq_mask a 1) 0.999.

(** The shape integral that lines 400 and 402 leave at an entry. *)
Definition theta_at (a : R) : float :=
  if Rltb a 1 then EM.theta_oblate a
  else if Rltb 1 a then EM.theta_prolate a
  else Err Uninitialised.

(** Lines 400 to 421 at one entry. *)
Definition PQ_at (Km Gm : R) (kga : R * R * R) : float * float :=
  let '(k, g, a) := kga in EM.PQ_entry Km Gm k g a (theta_at a).

(** What a call computes, as a function of the clamped array. *)
Definition PQ_clamped (Km Gm : R) (Ki Gi al : list R)
  : res (list float * list float) :=
  if negb (Nat.eqb (length al) (length Ki)
           && Nat.eqb (length Gi) (length Ki))
  then Err ShapeMismatch
  else
    let PQ := map (PQ_at Km Gm) (combine (combine Ki Gi) al) in
    Ok (map fst PQ, map snd PQ).

(** The inverse hyperbolic cosine. *)
Definition arccosh (x : R) : R := ln (x + sqrt (x * x - 1)).

Definition farccosh (x : float) : float :=
  a <- x ;; if Rltb a 1 then Err NotANumber else Ok (arccosh a).

(** The shape integral of a prolate entry as the specification words it. *)
Definition theta_prolate_spec (a : R) : float :=
  (a / fpow (fsqr a - 1) (3 / 2)
   * (a * fsqrt (fsqr a - 1) - farccosh a))%fl.

(** The sum [f 0 + ... + f (n-1)] of computed values. *)
Definition fbig_sum (n : nat) (f : nat -> float) : float :=
  fold_right fadd (fin 0) (map f (seq 0 n)).

(** Two root finders that reach the same iterates, whatever flags they
    report. *)
Definition same_iterates (s s' : EM.root_finder) : Prop :=
  forall func x0, EM.last_x (s func x0) = EM.last_x (s' func x0).

(** A run that stops at its starting point and reports that the iteration
    makes no progress ([ier = 5]), and a run that stops at the same point and
    reports a solution ([ier = 1]). *)
Definition stalled : EM.root_finder :=
  fun _ x0 => {| EM.last_x := x0; EM.ier := 5 |}.

Definition solved : EM.root_finder :=
  fun _ x0 => {| EM.last_x := x0; EM.ier := 1 |}.

(** A binary64 number that is finite and not zero. *)
Definition regular (x : PrimFloat.float) : bool :=
  PrimFloat.is_finite x && negb (PrimFloat.is_zero x).

(** * Properties *)

(** ** Evaluating float expressions *)

Lemma Reqb_refl (x : R) : Reqb x x = true.
Proof. unfold Reqb. destruct (Req_dec_T x x); congruence. Qed.

Lemma Reqb_neq (x y : R) : x <> y -> Reqb x y = false.
Proof. unfold Reqb. destruct (Req_dec_T x y); congruence. Qed.

Lemma Reqb_true (x y : R) : Reqb x y = true -> x = y.
Proof. unfold Reqb. destruct (Req_dec_T x y); congruence. Qed.

Lemma Rltb_lt (x y : R) : x < y -> Rltb x y = true.
Proof. unfold Rltb. destruct (Rlt_dec x y); [reflexivity | contradiction]. Qed.

Lemma Rltb_ge (x y : R) : y <= x -> Rltb x y = false.
Proof. unfold Rltb. destruct (Rlt_dec x y); [lra | reflexivity]. Qed.

Lemma fdiv_Ok (a b : R) : b <> 0 -> (Ok a / Ok b)%fl = Ok (a / b).
Proof. intros Hb. unfold fdiv; simpl. now rewrite Reqb_neq. Qed.

Lemma fdiv_zero (a : R) : (Ok a / Ok 0)%fl = Err ZeroDivision.
Proof. unfold fdiv; simpl. now rewrite Reqb_refl. Qed.

Lemma finv_Ok (b : R) : b <> 0 -> finv (Ok b) = Ok (1 / b).
Proof. intros Hb. unfold finv, fin. now rewrite fdiv_Ok. Qed.

(** Unfold the lifted operations on known numbers; divisions are left to
    [fdiv_Ok] with a proof that the divisor is not zero. *)
Ltac fl_step :=
  cbn [fadd fsub fmul fneg fsqr lift2 bind fin].

Ltac fl_div tac :=
  first [ rewrite fdiv_Ok by tac | rewrite finv_Ok by tac ]; fl_step.

(** ** The dry-crack model without cracks *)

(** The Poisson ratio of a solid with positive moduli lies below one half. *)
Lemma poisson_below_half (K0 G0 : R) :
  0 < K0 -> 0 < G0 -> (3 * K0 - 2 * G0) / (6 * K0 + 2 * G0) < 1 / 2.
Proof.
  intros HK HG.
  apply Rmult_lt_reg_r with (6 * K0 + 2 * G0); [lra | ].
  unfold Rdiv at 1. rewrite Rmult_assoc, Rinv_l by lra. lra.
Qed.

(** In exact arithmetic, with crack density 0 and positive background
    moduli, [OConnell_Budiansky] returns the background moduli themselves:
    the exact Poisson ratio lies below 1/2, so no divisor vanishes. *)
Lemma OConnell_Budiansky_exact_no_cracks (K0 G0 : R) :
  0 < K0 -> 0 < G0 -> EM.OConnell_Budiansky K0 G0 0 = Ok (K0, G0).
Proof.
  intros HK HG. unfold EM.OConnell_Budiansky.
  pose proof (poisson_below_half K0 G0 HK HG) as Hnu.
  fl_step. fl_div lra. fl_div lra.
  set (nu0 := (3 * K0 - 2 * G0) / (6 * K0 + 2 * G0)) in *.
  set (nu_eff := nu0 * (1 - 16 * 0 / 9)).
  assert (Enu : nu_eff = nu0) by (unfold nu_eff; lra).
  fl_div lra. fl_div lra.
  f_equal. f_equal; rewrite Enu; field; lra.
Qed.

(** ** Voigt, Reuss and Hill averages *)

Lemma big_sum_S (n : nat) (f : nat -> R) :
  big_sum (S n) f = f 0%nat + big_sum n (fun i => f (S i)).
Proof.
  unfold big_sum. simpl. f_equal.
  rewrite <- seq_shift, map_map. reflexivity.
Qed.

Lemma rdot_weighted_sum (v m : list R) :
  length v = length m -> rdot v m = weighted_sum v m.
Proof.
  revert m. induction v as [| x v IH]; intros [| y m] Hlen;
    try discriminate; [reflexivity | ].
  unfold weighted_sum. simpl length. rewrite big_sum_S. simpl.
  f_equal. apply IH. now injection Hlen.
Qed.

Lemma dot_fin (v m : list R) :
  length v = length m -> Np.dot (map fin v) (map fin m) = Ok (rdot v m).
Proof.
  revert m. induction v as [| x v IH]; intros [| y m] Hlen;
    try discriminate; [reflexivity | ].
  simpl. rewrite IH by now injection Hlen. reflexivity.
Qed.

Lemma map_inverse_fin (M : list R) :
  Forall (fun m => m <> 0) M ->
  map (fun m : R => (1 / m)%fl) M = map fin (map (fun m => 1 / m) M).
Proof.
  induction 1 as [| m M Hm _ IH]; [reflexivity | ].
  cbn [map]. rewrite IH. f_equal. unfold fin. now rewrite fdiv_Ok.
Qed.

Lemma VRH_averages (volumes M : list R) :
  length volumes = length M ->
  Forall (fun m => m <> 0) M ->
  EM.VRH volumes M = (Voigt volumes M, Reuss volumes M, Hill volumes M).
Proof.
  intros Hlen HM. unfold EM.VRH, Hill, Reuss, Voigt.
  rewrite map_inverse_fin by exact HM.
  rewrite !dot_fin by (now rewrite ?length_map).
  rewrite !rdot_weighted_sum by (now rewrite ?length_map).
  set (V := weighted_sum volumes M).
  set (h := weighted_sum volumes (map (fun m => 1 / m) M)).
  f_equal. unfold finv, fin. unfold fdiv at 1 3. cbn [bind].
  destruct (Reqb h 0); [reflexivity | ].
  fl_step. rewrite fdiv_Ok by lra. f_equal. lra.
Qed.

(** C6: on arrays of equal length with nonzero moduli, [VRH] returns the
    Voigt average (the dot product of volumes and moduli), the Reuss average
    (the inverse of the dot product of volumes and inverse moduli) and the
    Hill average (half their sum), in this order. *)
Theorem VRH_triple (volumes M : list R) :
  length volumes = length M ->
  Forall (fun m => m <> 0) M ->
  EM.VRH volumes M = (Voigt volumes M, Reuss volumes M, Hill volumes M).
Proof. apply VRH_averages. Qed.

Lemma VRH_triple_witness :
  EM.VRH [0.5; 0.5] [2; 4]
  = (Voigt [0.5; 0.5] [2; 4], Reuss [0.5; 0.5] [2; 4],
     Hill [0.5; 0.5] [2; 4]).
Proof.
  apply VRH_triple; [reflexivity | ].
  repeat constructor; lra.
Defined.

(** Weighted means: the square of the total weight is at most the product
    of the weighted sum and the weighted sum of inverses. *)
Lemma weighted_sums_product (v m : list R) :
  length v = length m ->
  Forall (fun x => 0 <= x) v ->
  Forall (fun y => 0 < y) m ->
  0 <= rsum v /\ 0 <= rdot v m /\ 0 <= rdot v (map (fun y => 1 / y) m)
  /\ rsum v * rsum v <= rdot v m * rdot v (map (fun y => 1 / y) m).
Proof.
  revert m. induction v as [| x v IH]; intros [| y m] Hlen Hv Hm;
    try discriminate.
  - simpl. lra.
  - inversion Hv as [| ? ? Hx Hv']; inversion Hm as [| ? ? Hy Hm']; subst.
    injection Hlen as Hlen.
    destruct (IH m Hlen Hv' Hm') as (Hs & Hd & Hh & Hsq).
    simpl.
    set (s := rsum v) in *. set (d := rdot v m) in *.
    set (h := rdot v (map (fun y => 1 / y) m)) in *.
    assert (Hq : 0 < 1 / y) by (apply Rdiv_lt_0_compat; lra).
    set (q := 1 / y) in *.
    assert (Hyq : y * q = 1) by (unfold q; field; lra).
    assert (HA : 0 <= y * h) by nra.
    assert (HB : 0 <= d * q) by nra.
    assert (HAB : (y * h) * (d * q) = d * h).
    { replace (y * h * (d * q)) with ((y * q) * (d * h)) by ring.
      rewrite Hyq. ring. }
    assert (Hmid : 2 * s <= y * h + d * q).
    { assert (Hsq4 : (2 * s) * (2 * s) <= (y * h + d * q) * (y * h + d * q)).
      { replace ((y * h + d * q) * (y * h + d * q))
          with ((y * h - d * q) * (y * h - d * q) + 4 * ((y * h) * (d * q)))
          by ring.
        rewrite HAB.
        pose proof (Rle_0_sqr (y * h - d * q)) as H0. unfold Rsqr in H0.
        lra. }
      apply Rsqr_incr_0_var; [exact Hsq4 | lra]. }
    repeat split; nra.
Qed.

(** In exact arithmetic, for volumes that are nonnegative and sum to 1 and
    moduli that are positive, the three averages are numbers and the Reuss
    average is at most the Hill average, which is at most the Voigt
    average. *)
Lemma VRH_exact_ordering (volumes M : list R) :
  length volumes = length M ->
  Forall (fun x => 0 <= x) volumes ->
  rsum volumes = 1 ->
  Forall (fun m => 0 < m) M ->
  exists M_v M_r M_h,
    EM.VRH volumes M = (Ok M_v, Ok M_r, Ok M_h)
    /\ M_r <= M_h <= M_v.
Proof.
  intros Hlen Hv Hsum HM.
  assert (HM0 : Forall (fun m => m <> 0) M).
  { eapply Forall_impl; [ | exact HM]. simpl. intros; lra. }
  rewrite (VRH_averages volumes M Hlen HM0).
  unfold Hill, Reuss, Voigt.
  rewrite <- !rdot_weighted_sum by (now rewrite ?length_map).
  destruct (weighted_sums_product volumes M Hlen Hv HM)
    as (_ & Hd & Hh & Hsq).
  rewrite Hsum in Hsq.
  set (V := rdot volumes M) in *.
  set (h := rdot volumes (map (fun m => 1 / m) M)) in *.
  assert (Hhpos : 0 < h) by nra.
  assert (Hr : 1 / h <= V).
  { apply Rmult_le_reg_r with h; [exact Hhpos | ].
    unfold Rdiv. rewrite Rmult_assoc, Rinv_l by lra. lra. }
  exists V, (1 / h), ((V + 1 / h) / 2).
  split.
  - unfold fin. rewrite finv_Ok by lra. fl_step.
    rewrite fdiv_Ok by lra. reflexivity.
  - lra.
Qed.



(** ** Hashin-Shtrikman bounds *)

Lemma fdiv_by_zero (a b : R) : b = 0 -> (Ok a / Ok b)%fl = Err ZeroDivision.
Proof. intros ->. apply fdiv_zero. Qed.

Lemma finv_by_zero (b : R) : b = 0 -> finv (Ok b) = Err ZeroDivision.
Proof. intros ->. apply fdiv_zero. Qed.

(** Both bounds have the shape [x + w / (1 / (y - x) + (1 - w) * i)], with
    [i] the inverse of a reference stiffness. *)
Lemma HS_core (x1 x2 ia ib f : R) :
  x2 < x1 -> 0 < ia -> 0 < ib ->
  ia * (x1 - x2) < 1 ->
  ia * ib * (x1 - x2) <= ib - ia ->
  0 <= f <= 1 ->
  1 / (x2 - x1) + f * ia < 0
  /\ 0 < 1 / (x1 - x2) + (1 - f) * ib
  /\ x2 + f / (1 / (x1 - x2) + (1 - f) * ib)
     <= x1 + (1 - f) / (1 / (x2 - x1) + f * ia).
Proof.
  intros Hx Hia Hib Hu Hmono Hf.
  set (d := x1 - x2). assert (Hd : 0 < d) by (unfold d; lra).
  assert (Hq : 0 < 1 / d) by (apply Rdiv_lt_0_compat; lra).
  assert (E1 : 1 / (x2 - x1) = - (1 / d)) by (unfold d; field; lra).
  rewrite E1. fold d in Hu, Hmono.
  set (q := 1 / d) in *.
  assert (Hdq : d * q = 1) by (unfold q; field; lra).
  assert (HE : 0 < q - f * ia).
  { apply Rmult_lt_reg_l with d; [exact Hd | ].
    replace (d * (q - f * ia)) with (d * q - f * (ia * d)) by ring.
    rewrite Hdq, Rmult_0_r.
    assert (Hfu : f * (ia * d) <= 1 * (ia * d))
      by (apply Rmult_le_compat_r; nra).
    lra. }
  assert (HD : 0 < q + (1 - f) * ib) by nra.
  split; [lra | split; [exact HD | ]].
  replace (- q + f * ia) with (- (q - f * ia)) by ring.
  set (E := q - f * ia) in *. set (D := q + (1 - f) * ib) in *.
  assert (Hgoal : f / D + (1 - f) / E <= d).
  { apply Rmult_le_reg_r with (E * D); [nra | ].
    replace ((f / D + (1 - f) / E) * (E * D))
      with (f * E + (1 - f) * D) by (field; lra).
    replace (d * (E * D)) with ((d * q - f * (ia * d)) * D)
      by (unfold E; ring).
    rewrite Hdq. unfold E, D.
    match goal with |- ?a <= ?b => enough (0 <= b - a) by lra end.
    replace ((1 - f * (ia * d)) * (q + (1 - f) * ib)
             - (f * (q - f * ia) + (1 - f) * (q + (1 - f) * ib)))
      with (f * (1 - f) * (ib - ia - ia * ib * d) + f * ia * (1 - d * q))
      by ring.
    rewrite Hdq.
    assert (H1 : 0 <= f * (1 - f)) by nra.
    assert (H2 : 0 <= ib - ia - ia * ib * d) by lra.
    pose proof (Rmult_le_pos _ _ H1 H2). lra. }
  assert (HfE : (1 - f) / - E = - ((1 - f) / E)) by (field; lra).
  rewrite HfE. unfold d in Hgoal. lra.
Qed.

(** The reference stiffnesses of the bulk-modulus bounds. *)
Lemma HS_bulk_reference (K1 K2 G1 G2 : R) :
  0 < K2 < K1 -> 0 < G2 <= G1 ->
  let ia := 1 / (K1 + 4 * G1 / 3) in
  let ib := 1 / (K2 + 4 * G2 / 3) in
  0 < ia /\ 0 < ib /\ ia * (K1 - K2) < 1
  /\ ia * ib * (K1 - K2) <= ib - ia.
Proof.
  intros HK HG ia ib.
  set (a := K1 + 4 * G1 / 3) in *. set (b := K2 + 4 * G2 / 3) in *.
  assert (Ha : 0 < a) by (unfold a; lra).
  assert (Hb : 0 < b) by (unfold b; lra).
  assert (Hia : 0 < ia) by (apply Rdiv_lt_0_compat; lra).
  assert (Hib : 0 < ib) by (apply Rdiv_lt_0_compat; lra).
  assert (Eia : ia * a = 1) by (unfold ia; field; lra).
  assert (Eib : ib * b = 1) by (unfold ib; field; lra).
  assert (Hab : K1 - K2 <= a - b) by (unfold a, b; lra).
  repeat split; try assumption.
  - assert (H : ia * (K1 - K2) < ia * a)
      by (apply Rmult_lt_compat_l; [exact Hia | unfold a; lra]).
    lra.
  - assert (H : ia * ib * (K1 - K2) <= ia * ib * (a - b))
      by (apply Rmult_le_compat_l; [nra | exact Hab]).
    replace (ia * ib * (a - b)) with (ib * (ia * a) - ia * (ib * b)) in H
      by ring.
    rewrite Eia, Eib in H. lra.
Qed.

(** The reference stiffnesses of the shear-modulus bounds, [2 * Temp]. *)
Lemma HS_shear_reference (K1 K2 G1 G2 : R) :
  0 < K2 <= K1 -> 0 < G2 < G1 ->
  let ia := 2 * ((K1 + 2 * G1) / (5 * G1 * (K1 + 4 * G1 / 3))) in
  let ib := 2 * ((K2 + 2 * G2) / (5 * G2 * (K2 + 4 * G2 / 3))) in
  0 < ia /\ 0 < ib /\ ia * (G1 - G2) < 1
  /\ ia * ib * (G1 - G2) <= ib - ia.
Proof.
  intros HK HG ia ib.
  set (n1 := 2 * (K1 + 2 * G1)). set (d1 := 5 * G1 * (K1 + 4 * G1 / 3)).
  set (n2 := 2 * (K2 + 2 * G2)). set (d2 := 5 * G2 * (K2 + 4 * G2 / 3)).
  assert (Hn1 : 0 < n1) by (unfold n1; lra).
  assert (Hn2 : 0 < n2) by (unfold n2; lra).
  assert (Hd1 : 0 < d1) by (unfold d1; nra).
  assert (Hd2 : 0 < d2) by (unfold d2; nra).
  assert (Eia : ia = n1 / d1) by (unfold ia, n1, d1; field; nra).
  assert (Eib : ib = n2 / d2) by (unfold ib, n2, d2; field; nra).
  assert (Hia : 0 < ia) by (rewrite Eia; apply Rdiv_lt_0_compat; lra).
  assert (Hib : 0 < ib) by (rewrite Eib; apply Rdiv_lt_0_compat; lra).
  assert (Hsmall : n1 * (G1 - G2) < d1) by (unfold n1, d1; nra).
  assert (Hpoly : n1 * n2 * (G1 - G2) <= n2 * d1 - n1 * d2).
  { unfold n1, n2, d1, d2.
    match goal with |- ?l <= ?r => enough (0 <= (3 / 2) * (r - l)) by lra end.
    replace (3 / 2 * (2 * (K2 + 2 * G2) * (5 * G1 * (K1 + 4 * G1 / 3))
                      - 2 * (K1 + 2 * G1) * (5 * G2 * (K2 + 4 * G2 / 3))
                      - 2 * (K1 + 2 * G1) * (2 * (K2 + 2 * G2)) * (G1 - G2)))
      with (9 * (K1 * K2) * (G1 - G2) + 16 * (G1 * G2) * (G1 - G2)
            + (K1 - K2) * G2 * (18 * G1 - 8 * G2)
            + 8 * K2 * ((G1 - G2) * (G1 + G2))) by field.
    assert (0 <= K1 * K2) by nra.
    assert (0 <= G1 * G2) by nra.
    assert (0 <= (K1 - K2) * G2) by nra.
    assert (0 <= (G1 - G2) * (G1 + G2)) by nra.
    assert (0 <= 9 * (K1 * K2) * (G1 - G2)) by nra.
    assert (0 <= 16 * (G1 * G2) * (G1 - G2)) by nra.
    assert (0 <= (K1 - K2) * G2 * (18 * G1 - 8 * G2)) by nra.
    assert (0 <= 8 * K2 * ((G1 - G2) * (G1 + G2))) by nra.
    lra. }
  repeat split; try assumption.
  - rewrite Eia. apply Rmult_lt_reg_r with d1; [exact Hd1 | ].
    replace (n1 / d1 * (G1 - G2) * d1) with (n1 * (G1 - G2))
      by (field; lra).
    lra.
  - rewrite Eia, Eib. apply Rmult_le_reg_r with (d1 * d2); [nra | ].
    replace (n1 / d1 * (n2 / d2) * (G1 - G2) * (d1 * d2))
      with (n1 * n2 * (G1 - G2)) by (field; lra).
    replace ((n2 / d2 - n1 / d1) * (d1 * d2)) with (n2 * d1 - n1 * d2)
      by (field; lra).
    exact Hpoly.
Qed.

(** In exact arithmetic, for a strictly stiffer phase 1
    ([K1 > K2 > 0], [G1 > G2 > 0]) and [f] in [[0, 1]], both calls return
    numbers and each modulus of the ['upper'] result is at least the
    modulus of the ['lower'] result. *)
Lemma HS_exact_upper_above_lower (f K1 K2 G1 G2 : R) :
  0 < K2 < K1 -> 0 < G2 < G1 -> 0 <= f <= 1 ->
  exists Ku Gu Kl Gl,
    EM.HS f K1 K2 G1 G2 "upper" = Ok (Ku, Gu)
    /\ EM.HS f K1 K2 G1 G2 "lower" = Ok (Kl, Gl)
    /\ Kl <= Ku /\ Gl <= Gu.
Proof.
  intros HK HG Hf.
  destruct (HS_bulk_reference K1 K2 G1 G2) as (Ka & Kb & Ku' & Km');
    [lra | lra | ].
  destruct (HS_shear_reference K1 K2 G1 G2) as (Ga & Gb & Gu' & Gm');
    [lra | lra | ].
  destruct (HS_core K1 K2 _ _ f (proj2 HK) Ka Kb Ku' Km' Hf)
    as (HKu & HKl & HKle).
  destruct (HS_core G1 G2 _ _ f (proj2 HG) Ga Gb Gu' Gm' Hf)
    as (HGu & HGl & HGle).
  assert (Hd1 : 5 * G1 * (K1 + 4 * G1 / 3) <> 0) by nra.
  assert (Hd2 : 5 * G2 * (K2 + 4 * G2 / 3) <> 0) by nra.
  set (T1 := (K1 + 2 * G1) / (5 * G1 * (K1 + 4 * G1 / 3))) in *.
  set (T2 := (K2 + 2 * G2) / (5 * G2 * (K2 + 4 * G2 / 3))) in *.
  replace (f * (2 * T1)) with (2 * f * T1) in * by ring.
  replace ((1 - f) * (2 * T2)) with (2 * (1 - f) * T2) in * by ring.
  do 4 eexists. split; [ | split; [ | split]].
  - unfold EM.HS. cbn [String.eqb Ascii.eqb Bool.eqb]. fl_step.
    repeat fl_div lra. fold T1. repeat fl_div lra. reflexivity.
  - unfold EM.HS. cbn [String.eqb Ascii.eqb Bool.eqb]. fl_step.
    repeat fl_div lra. fold T2. repeat fl_div lra. reflexivity.
  - exact HKle.
  - exact HGle.
Qed.

(** ** The shape-factor evaluator *)

Lemma clamp_map (a : list R) :
  clamp a = map (fun x => if Reqb x 1 then 0.999 else x) a.
Proof.
  unfold clamp, Np.eq_mask.
  induction a as [| x a IH]; [reflexivity | ]. simpl. now rewrite IH.
Qed.

Lemma clamp_length (a : list R) : length (clamp a) = length a.
Proof. rewrite clamp_map. apply length_map. Qed.

Lemma clamp_no_unit (a : list R) : ~ In 1 (clamp a).
Proof.
  rewrite clamp_map. intros Hin. apply in_map_iff in Hin.
  destruct Hin as (x & Hx & _). unfold Reqb in Hx.
  destruct (Req_dec_T x 1); lra.
Qed.

(** After line 398 the mask [alpha == 1] selects nothing. *)
Lemma eq_mask_clamp (a : list R) :
  Np.eq_mask (clamp a) 1 = repeat false (length a).
Proof.
  rewrite clamp_map. unfold Np.eq_mask. rewrite map_map.
  induction a as [| x a IH]; [reflexivity | ]. simpl. rewrite IH.
  f_equal. unfold Reqb at 2. destruct (Req_dec_T x 1) as [-> | Hx].
  - apply Reqb_neq. lra.
  - now apply Reqb_neq.
Qed.

Lemma clamp_idempotent (a : list R) : clamp (clamp a) = clamp a.
Proof.
  unfold clamp at 1. rewrite eq_mask_clamp, <- (clamp_length a).
  generalize (clamp a) as b. induction b as [| x b IH]; [reflexivity | ].
  simpl. now rewrite IH.
Qed.

Lemma clamp_changes (a : list R) : In 1 a -> clamp a <> a.
Proof.
  intros Hin Heq. apply (clamp_no_unit a). now rewrite Heq.
Qed.

Lemma select_none {A : Type} (a : list A) (n : nat) :
  Np.select a (repeat false n) = [].
Proof.
  revert n. induction a as [| x a IH]; intros [| n]; simpl; auto.
Qed.

Lemma put_nothing {A : Type} (a : list A) (mask : list bool) :
  Np.put a mask [] = a.
Proof.
  revert mask. induction a as [| x a IH]; intros [| b mask]; simpl; auto.
  destruct b; now rewrite IH.
Qed.

Lemma store_same (h : Np.heap) (r : Np.ref) (v : list R) :
  Np.store h r v r = v.
Proof. unfold Np.store. now rewrite Nat.eqb_refl. Qed.

Lemma store_other (h : Np.heap) (r r' : Np.ref) (v : list R) :
  r' <> r -> Np.store h r v r' = h r'.
Proof.
  intros Hr. unfold Np.store. apply Nat.eqb_neq in Hr. now rewrite Hr.
Qed.

(** Lines 400 and 402 assign every entry of [theta] once. *)
Lemma theta_filled (al : list R) :
  Np.put
    (Np.put (Np.empty (length al)) (Np.lt_mask al 1)
       (map EM.theta_oblate (Np.select al (Np.lt_mask al 1))))
    (Np.gt_mask al 1)
    (map EM.theta_prolate (Np.select al (Np.gt_mask al 1)))
  = map theta_at al.
Proof.
  induction al as [| a al IH]; [reflexivity | ].
  unfold theta_at at 1. simpl.
  destruct (Rlt_dec a 1) as [Hlt | Hge].
  - rewrite (Rltb_lt a 1 Hlt), (Rltb_ge 1 a) by lra. simpl.
    f_equal. exact IH.
  - rewrite (Rltb_ge a 1) by lra. simpl.
    destruct (Rltb 1 a); simpl; f_equal; exact IH.
Qed.

Lemma PQ_entries_map (Km Gm : R) (Ki Gi al : list R) :
  EM.PQ_entries Km Gm Ki Gi al (map theta_at al)
  = map (PQ_at Km Gm) (combine (combine Ki Gi) al).
Proof.
  revert Gi al. induction Ki as [| k Ki IH]; intros [| g Gi] [| a al];
    try reflexivity.
  simpl. f_equal. apply IH.
Qed.

(** The whole call: the caller's array is clamped in place, and the factors
    are the general formulas on the clamped array; the assignments of lines
    423 and 425 select no entry. *)
Lemma PQ_vectorize_eq (Km Gm : R) (Ki Gi : list R) (alpha : Np.ref)
    (h : Np.heap) :
  EM.PQ_vectorize Km Gm Ki Gi alpha h
  = (Np.store h alpha (clamp (h alpha)),
     PQ_clamped Km Gm Ki Gi (clamp (h alpha))).
Proof.
  unfold EM.PQ_vectorize, PQ_clamped, Np.setitem_scalar. fold (clamp (h alpha)).
  rewrite !store_same.
  destruct (negb _) eqn:Hshape; [reflexivity | ].
  apply negb_false_iff, andb_true_iff in Hshape.
  destruct Hshape as [Hal HGi]. apply Nat.eqb_eq in Hal.
  rewrite <- Hal, theta_filled, PQ_entries_map.
  rewrite eq_mask_clamp, !select_none.
  change (map (EM.P_sphere Km Gm) []) with (@nil float).
  change (map (EM.Q_sphere Km Gm) []) with (@nil float).
  rewrite !put_nothing. reflexivity.
Qed.

Lemma nth_error_combine {A B : Type} (a : list A) (b : list B) (i : nat)
    (x : A) (y : B) :
  nth_error a i = Some x -> nth_error b i = Some y ->
  nth_error (combine a b) i = Some (x, y).
Proof.
  revert b i. induction a as [| x' a IH]; intros [| y' b] [| i] Ha Hb;
    try discriminate; simpl in *.
  - congruence.
  - now apply IH.
Qed.

Lemma theta_at_clamped_unit : theta_at 0.999 = EM.theta_oblate 0.999.
Proof. unfold theta_at. rewrite Rltb_lt by lra. reflexivity. Qed.

(** C2 (the code departs from it): a call replaces every entry 1 of the
    caller's array by 0.999, so an array that holds a 1 is not the same
    after the call. *)
Theorem PQ_vectorize_clamps_caller_alpha (Km Gm : R) (Ki Gi : list R)
    (alpha : Np.ref) (h : Np.heap) :
  In 1 (h alpha) ->
  let h' := fst (EM.PQ_vectorize Km Gm Ki Gi alpha h) in
  h' alpha = map (fun x => if Reqb x 1 then 0.999 else x) (h alpha)
  /\ h' alpha <> h alpha
  /\ (forall r, r <> alpha -> h' r = h r).
Proof.
  intros Hin h'. unfold h'. rewrite PQ_vectorize_eq. cbn [fst].
  rewrite store_same. split; [apply clamp_map | split].
  - now apply clamp_changes.
  - intros r Hr. now apply store_other.
Qed.

Lemma PQ_vectorize_clamps_caller_alpha_witness :
  let h := fun _ : Np.ref => [1; 0.5] in
  let h' := fst (EM.PQ_vectorize 1 1 [2; 2] [2; 2] 0%nat h) in
  h' 0%nat = map (fun x => if Reqb x 1 then 0.999 else x) (h 0%nat)
  /\ h' 0%nat <> h 0%nat
  /\ (forall r, r <> 0%nat -> h' r = h r).
Proof.
  intros h. apply (PQ_vectorize_clamps_caller_alpha 1 1 [2; 2] [2; 2] 0%nat h).
  simpl. left. reflexivity.
Defined.

(** At a position where the caller's array holds 1 the returned factors are
    those of the general formulas at aspect ratio 0.999; the closed forms of
    lines 423 and 425 are written nowhere. *)
Lemma PQ_vectorize_at_unit_alpha (Km Gm : R) (Ki Gi : list R)
    (alpha : Np.ref) (h : Np.heap) (i : nat) (k g : R) :
  length (h alpha) = length Ki -> length Gi = length Ki ->
  nth_error (h alpha) i = Some 1 ->
  nth_error Ki i = Some k -> nth_error Gi i = Some g ->
  exists P Q,
    snd (EM.PQ_vectorize Km Gm Ki Gi alpha h) = Ok (P, Q)
    /\ nth_error P i
       = Some (fst (EM.PQ_entry Km Gm k g 0.999 (EM.theta_oblate 0.999)))
    /\ nth_error Q i
       = Some (snd (EM.PQ_entry Km Gm k g 0.999 (EM.theta_oblate 0.999))).
Proof.
  intros Hal HGi Hi Hk Hg. rewrite PQ_vectorize_eq. cbn [snd].
  unfold PQ_clamped. rewrite clamp_length, Hal, HGi, Nat.eqb_refl. cbn [andb negb].
  do 2 eexists. split; [reflexivity | ].
  assert (Hc : nth_error (clamp (h alpha)) i = Some 0.999).
  { rewrite clamp_map, nth_error_map, Hi. cbn. now rewrite Reqb_refl. }
  pose proof (nth_error_combine _ _ i _ _
                (nth_error_combine _ _ i _ _ Hk Hg) Hc) as Hkga.
  rewrite !nth_error_map, Hkga. cbn [option_map PQ_at].
  rewrite theta_at_clamped_unit. split; reflexivity.
Qed.

(** ** The prolate shape integral *)

Lemma cosh_ge_1 (x : R) : 1 <= cosh x.
Proof.
  unfold cosh.
  pose proof (exp_pos x) as Hp. pose proof (exp_pos (- x)) as Hn.
  assert (He : exp x * exp (- x) = 1).
  { rewrite <- exp_plus. replace (x + - x) with 0 by ring. apply exp_0. }
  pose proof (Rle_0_sqr (exp x - exp (- x))) as Hs. unfold Rsqr in Hs.
  assert (H4 : 2 * 2 <= (exp x + exp (- x)) * (exp x + exp (- x))) by nra.
  assert (H2 : 2 <= exp x + exp (- x)).
  { apply Rsqr_incr_0_var; [exact H4 | lra]. }
  lra.
Qed.

Lemma arccosh_2_above_1 : 1 < arccosh 2.
Proof.
  unfold arccosh. rewrite <- (ln_exp 1) at 1.
  apply ln_increasing; [apply exp_pos | ].
  assert (Hs : sqrt 1 < sqrt (2 * 2 - 1)) by (apply sqrt_lt_1; lra).
  rewrite sqrt_1 in Hs. pose proof exp_le_3. lra.
Qed.

Lemma Rpower_half (x : R) : 0 < x -> Rpower x 0.5 = sqrt x.
Proof.
  intros Hx. replace 0.5 with (/ 2) by lra. now apply Rpower_sqrt.
Qed.

(** C3 (the code departs from it): for the prolate entry 2 the factors are
    built on the shape integral of line 402, which takes the reciprocal
    [1 / cosh 2] where the shape integral of the claim has the inverse
    hyperbolic cosine [arccosh 2], and the two integrals differ. *)
Theorem theta_prolate_reciprocal_cosh :
  snd (EM.PQ_vectorize 1 1 [2] [2] 0%nat (fun _ => [2]))
  = Ok ([fst (EM.PQ_entry 1 1 2 2 2 (EM.theta_prolate 2))],
        [snd (EM.PQ_entry 1 1 2 2 2 (EM.theta_prolate 2))])
  /\ EM.theta_prolate 2
     = Ok (2 / Rpower (2 * 2 - 1) (3 / 2)
           * (2 * Rpower (2 * 2 - 1) 0.5 - 1 / cosh 2))
  /\ theta_prolate_spec 2
     = Ok (2 / Rpower (2 * 2 - 1) (3 / 2)
           * (2 * sqrt (2 * 2 - 1) - arccosh 2))
  /\ EM.theta_prolate 2 <> theta_prolate_spec 2.
Proof.
  assert (Hpos : 0 < Rpower (2 * 2 - 1) (3 / 2)) by apply exp_pos.
  pose proof (cosh_ge_1 2) as Hc.
  assert (Hcode : EM.theta_prolate 2
     = Ok (2 / Rpower (2 * 2 - 1) (3 / 2)
           * (2 * Rpower (2 * 2 - 1) 0.5 - 1 / cosh 2))).
  { unfold EM.theta_prolate, fpow, fcosh. fl_step.
    rewrite (Rltb_ge (2 * 2 - 1) 0), (Reqb_neq (2 * 2 - 1) 0) by lra.
    fl_step. fl_div lra. fl_div lra. reflexivity. }
  assert (Hspec : theta_prolate_spec 2
     = Ok (2 / Rpower (2 * 2 - 1) (3 / 2)
           * (2 * sqrt (2 * 2 - 1) - arccosh 2))).
  { unfold theta_prolate_spec, fpow, fsqrt, farccosh. fl_step.
    rewrite (Rltb_ge (2 * 2 - 1) 0), (Reqb_neq (2 * 2 - 1) 0),
      (Rltb_ge 2 1) by lra.
    fl_step. fl_div lra. reflexivity. }
  split; [ | split; [exact Hcode | split; [exact Hspec | ]]].
  - rewrite PQ_vectorize_eq, clamp_map. cbn [snd map].
    rewrite (Reqb_neq 2 1) by lra. unfold PQ_clamped. cbn.
    unfold theta_at. rewrite (Rltb_ge 2 1), (Rltb_lt 1 2) by lra.
    reflexivity.
  - rewrite Hcode, Hspec, Rpower_half by lra. intros Heq.
    injection Heq as Heq.
    apply Rmult_eq_reg_l in Heq.
    2:{ apply Rgt_not_eq. apply Rdiv_lt_0_compat; lra. }
    assert (Hinv : 1 / cosh 2 <= 1).
    { apply Rmult_le_reg_r with (cosh 2); [lra | ].
      unfold Rdiv. rewrite Rmult_assoc, Rinv_l by lra. lra. }
    pose proof arccosh_2_above_1. lra.
Qed.

(** ** The self-consistent residual and its solvers *)

Lemma fbig_sum_S (n : nat) (f : nat -> float) :
  fbig_sum (S n) f = (f 0%nat + fbig_sum n (fun i => f (S i)))%fl.
Proof.
  unfold fbig_sum. simpl. f_equal.
  rewrite <- seq_shift, map_map. reflexivity.
Qed.

Lemma sum_weighted_contrast (X K : list R) (K_sc : R) (P : list float) :
  length X = length K -> length P = length K ->
  Np.sum (EM.weighted_contrast X K K_sc P)
  = fbig_sum (length K)
      (fun i => (nth i X 0 * (nth i K 0 - K_sc) * nth i P (fin 0))%fl).
Proof.
  revert K P. induction X as [| x X IH]; intros [| k K] [| p P] HX HP;
    try discriminate; [reflexivity | ].
  simpl length. rewrite fbig_sum_S. simpl. f_equal.
  apply IH; [now injection HX | now injection HP].
Qed.

Lemma sum_fin (a : list R) : Np.sum (map fin a) = Ok (rsum a).
Proof.
  induction a as [| x a IH]; [reflexivity | ]. simpl. now rewrite IH.
Qed.

Lemma mean_Ok (a : list R) :
  a <> [] -> Np.mean a = Ok (rsum a / INR (length a)).
Proof.
  intros Ha. unfold Np.mean. rewrite sum_fin. unfold fin.
  apply fdiv_Ok. apply not_0_INR. destruct a; [congruence | discriminate].
Qed.

(** Every evaluation of the residual leaves the caller's array clamped. *)
Lemma Berrymann_func_heap (params : R * R) (K G X : list R) (Alpha : Np.ref)
    (h : Np.heap) :
  fst (EM.Berrymann_func params K G X Alpha h)
  = Np.store h Alpha (clamp (h Alpha)).
Proof.
  unfold EM.Berrymann_func. destruct params as [K_sc G_sc].
  rewrite PQ_vectorize_eq. reflexivity.
Qed.

(** In the store that an evaluation leaves, the residual has the values it
    has in the store of the first evaluation, and the store stays. *)
Lemma Berrymann_func_again (p q : R * R) (K G X : list R) (Alpha : Np.ref)
    (h : Np.heap) :
  let h' := fst (EM.Berrymann_func q K G X Alpha h) in
  snd (EM.Berrymann_func p K G X Alpha h')
  = snd (EM.Berrymann_func p K G X Alpha h)
  /\ forall r, fst (EM.Berrymann_func p K G X Alpha h') r = h' r.
Proof.
  intros h'. unfold h'. rewrite !Berrymann_func_heap.
  unfold EM.Berrymann_func. destruct p as [K_sc G_sc].
  rewrite !PQ_vectorize_eq. cbn [fst snd].
  rewrite !store_same, !clamp_idempotent. split; [reflexivity | ].
  intros r. unfold Np.store. destruct (Nat.eqb r Alpha); reflexivity.
Qed.

(** Whether the residual raises is decided by the shapes of the arrays, not
    by the trial point. *)
Lemma Berrymann_func_raises (p q : R * R) (K G X : list R) (Alpha : Np.ref)
    (h : Np.heap) :
  is_ok (snd (EM.Berrymann_func p K G X Alpha h))
  = is_ok (snd (EM.Berrymann_func q K G X Alpha h)).
Proof.
  unfold EM.Berrymann_func. destruct p as [Kp Gp], q as [Kq Gq].
  rewrite !PQ_vectorize_eq. unfold PQ_clamped. cbn [snd].
  destruct (negb (_ && _)); [reflexivity | ]. cbn [bind].
  destruct (negb (Nat.eqb _ _)); reflexivity.
Qed.

(** On arrays of one length the residual returns. *)
Lemma Berrymann_func_returns (p : R * R) (K G X : list R) (Alpha : Np.ref)
    (h : Np.heap) :
  length G = length K -> length X = length K ->
  length (h Alpha) = length K ->
  exists r, snd (EM.Berrymann_func p K G X Alpha h) = Ok r.
Proof.
  intros HG HX Hal. unfold EM.Berrymann_func. destruct p as [Kp Gp].
  rewrite PQ_vectorize_eq. unfold PQ_clamped. cbn [snd].
  rewrite clamp_length, Hal, HG, Nat.eqb_refl. cbn [andb negb bind].
  rewrite HX, Nat.eqb_refl. cbn [negb]. eexists. reflexivity.
Qed.

(** C5: on arrays of one length, the residual at a trial point is the pair
    of sums of [X_i * (K_i - K_sc) * P_i] and [X_i * (G_i - G_sc) * Q_i]
    over the factors that [PQ_vectorize] returns at that point, and
    [Berrymann_sc] returns what the root finder reaches from the means of
    [K] and [G]. *)
Theorem Berrymann_residual_and_start (hybrd : EM.root_finder)
    (K_sc G_sc : R) (K G X : list R) (Alpha : Np.ref) (h : Np.heap) :
  K <> [] ->
  length G = length K -> length X = length K ->
  length (h Alpha) = length K ->
  exists P Q,
    snd (EM.PQ_vectorize K_sc G_sc K G Alpha h) = Ok (P, Q)
    /\ snd (EM.Berrymann_func (K_sc, G_sc) K G X Alpha h)
       = Ok (fbig_sum (length K)
               (fun i => (nth i X 0 * (nth i K 0 - K_sc)
                          * nth i P (fin 0))%fl),
             fbig_sum (length K)
               (fun i => (nth i X 0 * (nth i G 0 - G_sc)
                          * nth i Q (fin 0))%fl))
    /\ snd (EM.Berrymann_sc hybrd K G X Alpha h)
       = Ok (EM.fsolve hybrd
               (fun params => snd (EM.Berrymann_func params K G X Alpha h))
               (rsum K / INR (length K), rsum G / INR (length G))).
Proof.
  intros HK HG HX Hal.
  assert (HPQ : exists P Q,
             PQ_clamped K_sc G_sc K G (clamp (h Alpha)) = Ok (P, Q)
             /\ length P = length K /\ length Q = length K).
  { unfold PQ_clamped.
    rewrite clamp_length, Hal, HG, Nat.eqb_refl. cbn [andb negb].
    do 2 eexists. split; [reflexivity | ].
    rewrite !length_map, !length_combine, clamp_length, Hal, HG.
    split; lia. }
  destruct HPQ as (P & Q & HPQ & HP & HQ).
  exists P, Q. split; [ | split].
  - now rewrite PQ_vectorize_eq.
  - unfold EM.Berrymann_func. rewrite PQ_vectorize_eq, HPQ. cbn [snd bind].
    rewrite HX, Nat.eqb_refl. cbn [negb].
    rewrite (sum_weighted_contrast X K K_sc P HX HP).
    rewrite <- HG at 2.
    rewrite (sum_weighted_contrast X G G_sc Q) by congruence.
    rewrite HG. reflexivity.
  - unfold EM.Berrymann_sc.
    assert (HGne : G <> []) by (destruct G, K; try discriminate; congruence).
    rewrite (mean_Ok K HK), (mean_Ok G HGne).
    destruct (Berrymann_func_returns
                (rsum K / INR (length K), rsum G / INR (length G))
                K G X Alpha h HG HX Hal) as [r ->].
    destruct (EM.fsolve hybrd _ _) as [Ks Gs]. reflexivity.
Qed.

Lemma Berrymann_residual_and_start_witness :
  exists P Q,
    snd (EM.PQ_vectorize 20 20 [36; 0] [45; 0] 0%nat (fun _ => [1; 1]))
    = Ok (P, Q)
    /\ snd (EM.Berrymann_func (20, 20) [36; 0] [45; 0] [0.9; 0.1] 0%nat
              (fun _ => [1; 1]))
       = Ok (fbig_sum 2
               (fun i => (nth i [0.9; 0.1] 0 * (nth i [36; 0] 0 - 20)
                          * nth i P (fin 0))%fl),
             fbig_sum 2
               (fun i => (nth i [0.9; 0.1] 0 * (nth i [45; 0] 0 - 20)
                          * nth i Q (fin 0))%fl))
    /\ snd (EM.Berrymann_sc (fun _ x0 => {| EM.last_x := x0; EM.ier := 1 |})
              [36; 0] [45; 0] [0.9; 0.1] 0%nat (fun _ => [1; 1]))
       = Ok (EM.fsolve (fun _ x0 => {| EM.last_x := x0; EM.ier := 1 |})
               (fun params =>
                  snd (EM.Berrymann_func params [36; 0] [45; 0] [0.9; 0.1]
                         0%nat (fun _ => [1; 1])))
               (rsum [36; 0] / INR 2, rsum [45; 0] / INR 2)).
Proof.
  apply (Berrymann_residual_and_start
           (fun _ x0 => {| EM.last_x := x0; EM.ier := 1 |})
           20 20 [36; 0] [45; 0] [0.9; 0.1] 0%nat (fun _ => [1; 1]));
    [discriminate | reflexivity | reflexivity | reflexivity].
Defined.

(** ** Convergence of the root finder *)

Lemma Berrymann_sc_same_iterates (s s' : EM.root_finder) (K G X : list R)
    (Alpha : Np.ref) (h : Np.heap) :
  same_iterates s s' ->
  EM.Berrymann_sc s K G X Alpha h = EM.Berrymann_sc s' K G X Alpha h.
Proof.
  intros Hs. unfold EM.Berrymann_sc, EM.fsolve.
  destruct (Np.mean K) as [K0 | e]; [ | reflexivity].
  destruct (Np.mean G) as [G0 | e]; [ | reflexivity].
  destruct (snd (EM.Berrymann_func (K0, G0) K G X Alpha h));
    [ | reflexivity].
  now rewrite Hs.
Qed.

Lemma OConnell_Budiansky_fl_same_iterates (s s' : EM.root_finder)
    (K0 G0 Kfl crd alpha : R) :
  same_iterates s s' ->
  EM.OConnell_Budiansky_fl s K0 G0 Kfl crd alpha
  = EM.OConnell_Budiansky_fl s' K0 G0 Kfl crd alpha.
Proof.
  intros Hs. unfold EM.OConnell_Budiansky_fl, EM.fsolve.
  destruct (_ / _)%fl as [nu0 | e]; [ | reflexivity]. cbn [bind].
  destruct (_ / _)%fl as [w | e]; [ | reflexivity]. cbn [bind].
  now rewrite Hs.
Qed.

(** X21: with an aspect-ratio array of another length than [K], the
    residual raises at the starting point and [Berrymann_sc] raises with it,
    whatever the root finder would report. *)
Theorem Berrymann_sc_shape_error (hybrd : EM.root_finder) (K G X : list R)
    (Alpha : Np.ref) (h : Np.heap) :
  K <> [] -> G <> [] -> length (h Alpha) <> length K ->
  snd (EM.Berrymann_sc hybrd K G X Alpha h) = Err ShapeMismatch.
Proof.
  intros HK HG Hal. unfold EM.Berrymann_sc.
  rewrite (mean_Ok K HK), (mean_Ok G HG).
  unfold EM.Berrymann_func at 1. rewrite PQ_vectorize_eq.
  unfold PQ_clamped. rewrite clamp_length.
  apply Nat.eqb_neq in Hal. rewrite Hal. reflexivity.
Qed.

Lemma Berrymann_sc_shape_error_witness :
  snd (EM.Berrymann_sc solved [1; 2] [1; 2] [0.5; 0.5] 0%nat
         (fun _ => [0.5]))
  = Err ShapeMismatch.
Proof.
  apply (Berrymann_sc_shape_error solved [1; 2] [1; 2] [0.5; 0.5] 0%nat
           (fun _ => [0.5]));
    [discriminate | discriminate | simpl; lia].
Defined.

(** C4, as the code has it: of the report of the root finder both solvers
    use the last iterate alone.  On arrays of one length [Berrymann_sc]
    returns that iterate as the moduli, and [OConnell_Budiansky_fl] returns
    the moduli its two formulas give at that iterate, whatever the flag
    [ier] of the run says: a run that did not converge is answered like one
    that did. *)
Theorem solvers_drop_convergence_flag (hybrd : EM.root_finder)
    (K G X : list R) (Alpha : Np.ref) (h : Np.heap)
    (K0 G0 Kfl crd alpha : R) :
  K <> [] -> length G = length K -> length X = length K ->
  length (h Alpha) = length K ->
  0 < K0 -> 0 < G0 -> alpha <> 0 ->
  let residual :=
    fun params => snd (EM.Berrymann_func params K G X Alpha h) in
  let run :=
    hybrd residual (rsum K / INR (length K), rsum G / INR (length G)) in
  let nu0 := (3 * K0 - 2 * G0) / (6 * K0 + 2 * G0) in
  let w := Kfl / alpha / K0 in
  let run' :=
    hybrd (fun params => Ok (EM.OC_R_funcs params crd nu0 w)) (0.2, 0.9) in
  let nu_eff := fst (EM.last_x run') in
  let D := snd (EM.last_x run') in
  snd (EM.Berrymann_sc hybrd K G X Alpha h) = Ok (EM.last_x run)
  /\ EM.OConnell_Budiansky_fl hybrd K0 G0 Kfl crd alpha
     = Ok ((K0 * (1 - 16 * (1 - fsqr nu_eff) * crd * D
                      / (9 * (1 - 2 * nu_eff))))%fl,
           (G0 * (1 - 32 / 45 * (1 - nu_eff) * (D + 3 / (2 - nu_eff))
                      * crd))%fl).
Proof.
  intros HK HG HX Hal HK0 HG0 Ha residual run nu0 w run' nu_eff D. split.
  - unfold EM.Berrymann_sc.
    assert (HGne : G <> []) by (destruct G, K; try discriminate; congruence).
    rewrite (mean_Ok K HK), (mean_Ok G HGne).
    destruct (Berrymann_func_returns
                (rsum K / INR (length K), rsum G / INR (length G))
                K G X Alpha h HG HX Hal) as [r ->].
    unfold EM.fsolve. fold residual. fold run.
    destruct (EM.last_x run). reflexivity.
  - unfold EM.OConnell_Budiansky_fl. fl_step. unfold fin.
    fl_div lra. fl_div lra. fl_div lra. fold nu0 w.
    unfold EM.fsolve. fold run'. unfold nu_eff, D.
    destruct (EM.last_x run') as [nu d]. reflexivity.
Qed.

Lemma solvers_drop_convergence_flag_witness :
  snd (EM.Berrymann_sc stalled [36; 0] [45; 0] [0.9; 0.1] 0%nat
         (fun _ => [1; 1]))
  = Ok (rsum [36; 0] / INR 2, rsum [45; 0] / INR 2)
  /\ EM.OConnell_Budiansky_fl stalled 36 45 2 0.1 0.01
     = Ok ((36 * (1 - 16 * (1 - fsqr 0.2) * 0.1 * 0.9
                      / (9 * (1 - 2 * 0.2))))%fl,
           (45 * (1 - 32 / 45 * (1 - 0.2) * (0.9 + 3 / (2 - 0.2))
                      * 0.1))%fl).
Proof.
  apply (solvers_drop_convergence_flag stalled [36; 0] [45; 0] [0.9; 0.1]
           0%nat (fun _ => [1; 1]) 36 45 2 0.1 0.01);
    [discriminate | reflexivity | reflexivity | reflexivity
    | lra | lra | lra].
Defined.

(** A run that did not converge is answered like one that did: the root
    finder [stalled] reports [ier = 5] on every run, and the caller of
    [Berrymann_sc] receives its last iterate [(18, 22.5)] as the moduli, the
    value that the converged run [solved] ending there gives; the caller of
    [OConnell_Budiansky_fl] receives moduli too. *)
Lemma unconverged_run_returns_answer :
  (forall func x0, EM.ier (stalled func x0) <> 1%Z)
  /\ snd (EM.Berrymann_sc stalled [36; 0] [45; 0] [0.9; 0.1] 0%nat
            (fun _ => [1; 1]))
     = Ok (18, 45 / 2)
  /\ snd (EM.Berrymann_sc solved [36; 0] [45; 0] [0.9; 0.1] 0%nat
            (fun _ => [1; 1]))
     = Ok (18, 45 / 2)
  /\ exists K_sat G_sat,
       EM.OConnell_Budiansky_fl stalled 36 45 2 0.1 0.01
       = Ok (K_sat, G_sat)
       /\ EM.OConnell_Budiansky_fl solved 36 45 2 0.1 0.01
          = Ok (K_sat, G_sat).
Proof.
  split; [intros func x0; discriminate | ].
  assert (HB : forall s, same_iterates s stalled ->
             snd (EM.Berrymann_sc s [36; 0] [45; 0] [0.9; 0.1] 0%nat
                    (fun _ => [1; 1])) = Ok (18, 45 / 2)).
  { intros s Hs. rewrite (Berrymann_sc_same_iterates s stalled) by exact Hs.
    unfold EM.Berrymann_sc. rewrite !mean_Ok by discriminate.
    destruct (Berrymann_func_returns
                (rsum [36; 0] / INR (length [36; 0]),
                 rsum [45; 0] / INR (length [45; 0]))
                [36; 0] [45; 0] [0.9; 0.1] 0%nat (fun _ => [1; 1])
                eq_refl eq_refl eq_refl) as [r ->].
    unfold EM.fsolve, stalled. cbn [EM.last_x snd].
    f_equal. f_equal; simpl; lra. }
  split; [apply HB; intros func x0; reflexivity | ].
  split; [apply HB; intros func x0; reflexivity | ].
  rewrite (OConnell_Budiansky_fl_same_iterates solved stalled)
    by (intros func x0; reflexivity).
  unfold EM.OConnell_Budiansky_fl. fl_step. unfold fin.
  fl_div lra. fl_div lra. fl_div lra.
  unfold EM.fsolve, stalled. cbn [EM.last_x].
  do 2 eexists. split; reflexivity.
Qed.

(** ** The clamped entries against the closed forms *)

(** The arctangent lies below the third partial sum of its series. *)
Lemma atan_upper (x : R) : 0 < x < 1 -> atan x <= x - x ^ 3 / 3 + x ^ 5 / 5.
Proof.
  intros Hx. rewrite atan_eq_ps_atan by exact Hx.
  assert (Hcv : Un_cv (fun N => sum_f_R0 (tg_alt (Ratan_seq x)) N)
                  (ps_atan x)).
  { intros eps Heps. destruct (Ratan_is_ps_atan eps Heps) as [N HN].
    exists N. intros n Hn. unfold Rdist. apply HN; [exact Hn | lra | lra]. }
  assert (Hx01 : 0 <= x <= 1) by lra.
  destruct (alternated_series_ineq (Ratan_seq x) (ps_atan x) 1
              (Ratan_seq_decreasing x Hx01) (Ratan_seq_converging x Hx01)
              Hcv) as [_ Hub].
  simpl in Hub. unfold tg_alt, Ratan_seq in Hub. simpl in Hub. lra.
Qed.

(** The shape integral at the clamped aspect ratio is a number below 2/3,
    its value for a sphere. *)
Lemma theta_oblate_clamped :
  exists t, EM.theta_oblate 0.999 = Ok t /\ t < 2 / 3.
Proof.
  set (y := 1 - 0.999 * 0.999).
  assert (Hy : 0 < y) by (unfold y; lra).
  assert (Hs : 0 < sqrt y) by (apply sqrt_lt_R0; exact Hy).
  assert (Hss : sqrt y * sqrt y = y) by (apply sqrt_sqrt; lra).
  assert (Hpow : Rpower y (3 / 2) = y * sqrt y).
  { replace (3 / 2) with (1 + / 2) by lra.
    now rewrite Rpower_plus, Rpower_1, Rpower_sqrt. }
  eexists. split.
  - unfold EM.theta_oblate, fpow, farccos, fsqrt. fl_step. fold y.
    rewrite (Rltb_ge y 0), (Reqb_neq y 0), (Rltb_ge 0.999 (-1)),
      (Rltb_ge 1 0.999) by lra.
    fl_step. rewrite Hpow. fl_div nra. reflexivity.
  - set (s := sqrt y) in *. set (u := s / 0.999).
    assert (Hu : 0 < u) by (apply Rdiv_lt_0_compat; lra).
    assert (Hu2 : u * u = y / (0.999 * 0.999)).
    { unfold u.
      replace (s / 0.999 * (s / 0.999)) with (s * s / (0.999 * 0.999))
        by (field; lra).
      now rewrite Hss. }
    assert (Hu1 : u < 1).
    { assert (u * u < 1 * 1) by (rewrite Hu2; unfold y; lra). nra. }
    pose proof (atan_upper u (conj Hu Hu1)) as Hat.
    replace (u ^ 3) with (u * (u * u)) in Hat by ring.
    replace (u ^ 5) with (u * ((u * u) * (u * u))) in Hat by ring.
    rewrite Hu2 in Hat.
    assert (Hacos : acos 0.999 = atan u).
    { rewrite acos_atan by lra. unfold Rsqr. reflexivity. }
    assert (Hsu : s = 0.999 * u) by (unfold u; field; lra).
    apply Rmult_lt_reg_r with (y * s); [nra | ].
    replace (0.999 / (y * s) * (acos 0.999 - 0.999 * s) * (y * s))
      with (0.999 * (acos 0.999 - 0.999 * s)) by (field; lra).
    rewrite Hacos, Hsu. unfold y in *.
    assert (Hr : (1 - 0.999 * 0.999) / (0.999 * 0.999) = 1999 / 998001)
      by (replace 0.999 with (999 / 1000) by lra; field).
    rewrite Hr in Hat. lra.
Qed.

(** At the moduli [Km = Gm = 1], [Ki = Gi = 2] the general formula for [P]
    meets the closed form only where the shape integral is 2/3. *)
Lemma P_entry_not_sphere (t : R) :
  t <> 2 / 3 ->
  fst (EM.PQ_entry 1 1 2 2 0.999 (Ok t)) <> EM.P_sphere 1 1 2.
Proof.
  intros Ht.
  assert (HP : EM.P_sphere 1 1 2 = Ok ((1 + 4 * 1 / 3) / (2 + 4 * 1 / 3))).
  { unfold EM.P_sphere. fl_step. unfold fin. repeat fl_div lra. reflexivity. }
  rewrite HP. clear HP.
  unfold EM.PQ_entry. cbv zeta. cbn [fst]. fl_step. unfold fin.
  repeat fl_div lra.
  match goal with
  | |- (Ok ?n / Ok ?d / _)%fl <> _ =>
      set (F1 := n); set (F2 := d);
      destruct (Req_dec_T d 0) as [H0 | H0]
  end.
  - unfold F2. rewrite (fdiv_by_zero _ _ H0). discriminate.
  - fold F2 in H0. rewrite (fdiv_Ok F1 F2 H0). fl_div lra.
    intros Heq. injection Heq as Heq.
    assert (HF : F1 / 3 - (1 + 4 * 1 / 3) / (2 + 4 * 1 / 3) * F2
                 = 27 / 70 * ((t - 2 / 3) * (t - 2 / 3))).
    { unfold F1, F2. replace 0.999 with (999 / 1000) by lra.
      replace 1.5 with (3 / 2) by lra. replace 2.5 with (5 / 2) by lra.
      field. }
    assert (HE : F1 / 3 = (1 + 4 * 1 / 3) / (2 + 4 * 1 / 3) * F2).
    { rewrite <- Heq. field. exact H0. }
    assert (Hsq : 0 < (t - 2 / 3) * (t - 2 / 3)).
    { assert (t - 2 / 3 <> 0) by lra. nra. }
    lra.
Qed.

(** C1 (the code departs from it): for the single spherical inclusion
    [alpha = [1]] with [Km = Gm = 1] and [Ki = Gi = 2] the returned [P] is
    the value of the general formula at aspect ratio 0.999, and it is not
    the closed form [(Km + 4 Gm / 3) / (Ki + 4 Gm / 3)]. *)
Theorem PQ_vectorize_unit_alpha_not_closed_form :
  exists P Q p,
    snd (EM.PQ_vectorize 1 1 [2] [2] 0%nat (fun _ => [1])) = Ok (P, Q)
    /\ nth_error P 0 = Some p
    /\ p = fst (EM.PQ_entry 1 1 2 2 0.999 (EM.theta_oblate 0.999))
    /\ EM.P_sphere 1 1 2 = Ok ((1 + 4 * 1 / 3) / (2 + 4 * 1 / 3))
    /\ p <> EM.P_sphere 1 1 2.
Proof.
  destruct (PQ_vectorize_at_unit_alpha 1 1 [2] [2] 0%nat (fun _ => [1])
              0%nat 2 2) as (P & Q & HPQ & HP & _); try reflexivity.
  exists P, Q. eexists. split; [exact HPQ | split; [exact HP | ]].
  split; [reflexivity | split].
  - unfold EM.P_sphere. fl_step. unfold fin. repeat fl_div lra. reflexivity.
  - destruct theta_oblate_clamped as (t & Ht & Hlt). rewrite Ht.
    apply P_entry_not_sphere. lra.
Qed.

(** * Further properties *)

(** ** Critical porosity *)

(** X1: between zero porosity and a positive critical porosity the moduli
    of [cripor] fall from the mineral moduli to zero and stay in between,
    for nonnegative mineral moduli. *)
Theorem cripor_between_mineral_and_zero (K0 G0 phi phic : R) :
  0 <= K0 -> 0 <= G0 -> 0 < phic -> 0 <= phi <= phic ->
  exists K_dry G_dry,
    EM.cripor K0 G0 phi phic = Ok (K_dry, G_dry)
    /\ 0 <= K_dry <= K0 /\ 0 <= G_dry <= G0
    /\ (phi = 0 -> K_dry = K0 /\ G_dry = G0)
    /\ (phi = phic -> K_dry = 0 /\ G_dry = 0).
Proof.
  intros HK HG Hc Hphi. unfold EM.cripor. fl_step. unfold fin.
  repeat fl_div lra.
  assert (Hr : 0 <= phi / phic <= 1).
  { split; apply Rmult_le_reg_r with phic; try lra;
      unfold Rdiv; rewrite Rmult_assoc, Rinv_l by lra; lra. }
  assert (H0 : phi = 0 -> phi / phic = 0)
    by (intros ->; unfold Rdiv; apply Rmult_0_l).
  assert (H1 : phi = phic -> phi / phic = 1)
    by (intros ->; unfold Rdiv; apply Rinv_r; lra).
  set (r := phi / phic) in *.
  do 2 eexists. split; [reflexivity | ].
  split; [nra | split; [nra | split]].
  - intros Hp. rewrite (H0 Hp). lra.
  - intros Hp. rewrite (H1 Hp). lra.
Qed.

Lemma cripor_between_mineral_and_zero_witness :
  exists K_dry G_dry,
    EM.cripor 36 45 0.2 0.4 = Ok (K_dry, G_dry)
    /\ 0 <= K_dry <= 36 /\ 0 <= G_dry <= 45
    /\ (0.2 = 0 -> K_dry = 36 /\ G_dry = 45)
    /\ (0.2 = 0.4 -> K_dry = 0 /\ G_dry = 0).
Proof. apply cripor_between_mineral_and_zero; lra. Defined.

(** X2: called with numbers for the two moduli and the critical porosity, as
    its docstring describes them, [cripor_reuss] raises for either value of
    [den]: [np.dot] is given the two moduli and an array of one row. *)
Theorem cripor_reuss_raises_on_numbers (M0 Mf phic : R) (den : bool) :
  EM.cripor_reuss M0 Mf phic den = Err ShapeMismatch.
Proof. destruct den; reflexivity. Qed.

(** ** More on the shape factors *)

(** X10: after one call the caller's array no longer changes, and every
    later call with the same arrays returns the factors that a call on the
    original array returns. *)
Theorem PQ_vectorize_second_call (Km Gm Km' Gm' : R) (Ki Gi : list R)
    (alpha : Np.ref) (h : Np.heap) :
  let h1 := fst (EM.PQ_vectorize Km' Gm' Ki Gi alpha h) in
  snd (EM.PQ_vectorize Km Gm Ki Gi alpha h1)
  = snd (EM.PQ_vectorize Km Gm Ki Gi alpha h)
  /\ forall r, fst (EM.PQ_vectorize Km Gm Ki Gi alpha h1) r = h1 r.
Proof.
  intros h1. unfold h1. rewrite !PQ_vectorize_eq. cbn [fst snd].
  rewrite !store_same, !clamp_idempotent. split; [reflexivity | ].
  intros r. unfold Np.store. destruct (Nat.eqb r alpha); reflexivity.
Qed.

(** An inclusion with the moduli of the matrix has both factors equal
    to 1, whatever its shape. *)
Lemma PQ_entry_matrix_inclusion (Km Gm a t : R) :
  0 < Km -> 0 < Gm -> a * a <> 1 ->
  EM.PQ_entry Km Gm Km Gm a (Ok t) = (Ok 1, Ok 1).
Proof.
  intros HK HG Ha.
  assert (HKK : Km / Km = 1) by (field; lra).
  assert (HGG : Gm / Gm = 1) by (field; lra).
  unfold EM.PQ_entry. cbv zeta. fl_step. unfold fin.
  repeat fl_div ltac:(rewrite ?HKK, ?HGG; lra).
  rewrite !HKK, !HGG.
  replace 1.5 with (3 / 2) by lra. replace 2.5 with (5 / 2) by lra.
  apply f_equal2; apply f_equal; field; lra.
Qed.

(** The shape integral of a positive aspect ratio other than 1 is a
    number. *)
Lemma theta_at_number (a : R) :
  0 < a -> a <> 1 -> exists t, theta_at a = Ok t.
Proof.
  intros Ha Ha1. unfold theta_at.
  destruct (Rlt_dec a 1) as [Hlt | Hge].
  - rewrite (Rltb_lt a 1 Hlt).
    assert (Hy : 0 < 1 - a * a) by nra.
    unfold EM.theta_oblate, fpow, farccos, fsqrt. fl_step.
    rewrite (Rltb_ge (1 - a * a) 0), (Reqb_neq (1 - a * a) 0),
      (Rltb_ge a (-1)), (Rltb_ge 1 a) by lra.
    fl_step.
    assert (Hp : Rpower (1 - a * a) (3 / 2) <> 0)
      by (apply Rgt_not_eq, exp_pos).
    rewrite (fdiv_Ok _ _ Hp). fl_step. eexists. reflexivity.
  - rewrite (Rltb_ge a 1), (Rltb_lt 1 a) by lra.
    assert (Hy : 0 < a * a - 1) by nra.
    unfold EM.theta_prolate, fpow, fcosh. fl_step.
    rewrite (Rltb_ge (a * a - 1) 0), (Reqb_neq (a * a - 1) 0) by lra.
    fl_step.
    assert (Hp : Rpower (a * a - 1) (3 / 2) <> 0)
      by (apply Rgt_not_eq, exp_pos).
    pose proof (cosh_ge_1 a) as Hc.
    rewrite (fdiv_Ok _ _ Hp), (finv_Ok (cosh a)) by lra.
    fl_step. eexists. reflexivity.
Qed.

Lemma PQ_at_matrix_inclusion (Km Gm a : R) :
  0 < Km -> 0 < Gm -> 0 < a -> a <> 1 ->
  PQ_at Km Gm (Km, Gm, a) = (Ok 1, Ok 1).
Proof.
  intros HK HG Ha Ha1. unfold PQ_at.
  destruct (theta_at_number a Ha Ha1) as [t ->].
  apply PQ_entry_matrix_inclusion; try assumption.
  intros Hsq. assert (Hz : (a - 1) * (a + 1) = 0) by lra.
  apply Rmult_integral in Hz. destruct Hz; lra.
Qed.

Lemma clamp_entry (al : list R) (i : nat) (a : R) :
  nth_error al i = Some a -> 0 < a ->
  exists a', nth_error (clamp al) i = Some a' /\ 0 < a' /\ a' <> 1.
Proof.
  intros Hi Ha. rewrite clamp_map, nth_error_map, Hi. cbn [option_map].
  eexists. split; [reflexivity | ].
  unfold Reqb. destruct (Req_dec_T a 1); split; lra.
Qed.

(** X11: at a position where the inclusion has the moduli of the matrix and
    a positive aspect ratio, the returned factors are [P = 1] and
    [Q = 1].  The upper limits on the moduli and the aspect ratio are those
    under which no intermediate binary64 result of the code overflows. *)
Theorem PQ_vectorize_matrix_inclusion (Km Gm : R) (Ki Gi : list R)
    (alpha : Np.ref) (h : Np.heap) (i : nat) (a : R) :
  0 < Km <= 1e300 -> 0 < Gm <= 1e300 ->
  length (h alpha) = length Ki -> length Gi = length Ki ->
  nth_error Ki i = Some Km -> nth_error Gi i = Some Gm ->
  nth_error (h alpha) i = Some a -> 0 < a <= 1e100 ->
  exists P Q,
    snd (EM.PQ_vectorize Km Gm Ki Gi alpha h) = Ok (P, Q)
    /\ nth_error P i = Some (Ok 1) /\ nth_error Q i = Some (Ok 1).
Proof.
  intros [HK _] [HG _] Hal HGi Hk Hg Hi [Ha _].
  rewrite PQ_vectorize_eq. cbn [snd].
  unfold PQ_clamped.
  rewrite clamp_length, Hal, HGi, Nat.eqb_refl. cbn [andb negb].
  do 2 eexists. split; [reflexivity | ].
  destruct (clamp_entry _ _ _ Hi Ha) as (a' & Hc & Ha' & Ha1).
  pose proof (nth_error_combine _ _ i _ _
                (nth_error_combine _ _ i _ _ Hk Hg) Hc) as Hkga.
  rewrite !nth_error_map, Hkga. cbn [option_map].
  rewrite (PQ_at_matrix_inclusion Km Gm a' HK HG Ha' Ha1).
  split; reflexivity.
Qed.

Lemma PQ_vectorize_matrix_inclusion_witness :
  exists P Q,
    snd (EM.PQ_vectorize 36 45 [36; 2] [45; 1] 0%nat (fun _ => [1; 0.1]))
    = Ok (P, Q)
    /\ nth_error P 0 = Some (Ok 1) /\ nth_error Q 0 = Some (Ok 1).
Proof.
  apply (PQ_vectorize_matrix_inclusion 36 45 [36; 2] [45; 1] 0%nat
           (fun _ => [1; 0.1]) 0%nat 1);
    try reflexivity; lra.
Defined.

Lemma PQ_common_moduli (K0 G0 : R) (al : list R) :
  0 < K0 -> 0 < G0 -> Forall (fun a => 0 < a /\ a <> 1) al ->
  map (PQ_at K0 G0)
    (combine (combine (repeat K0 (length al)) (repeat G0 (length al))) al)
  = repeat (Ok 1, Ok 1) (length al).
Proof.
  intros HK HG. induction 1 as [| a al [Ha Ha1] _ IH]; [reflexivity | ].
  simpl. rewrite IH. f_equal.
  now apply (PQ_at_matrix_inclusion K0 G0 a).
Qed.

Lemma clamp_positive (al : list R) :
  Forall (fun a => 0 < a) al ->
  Forall (fun a => 0 < a /\ a <> 1) (clamp al).
Proof.
  intros Hal. rewrite clamp_map. apply Forall_map.
  eapply Forall_impl; [ | exact Hal]. simpl. intros a Ha.
  unfold Reqb. destruct (Req_dec_T a 1); split; lra.
Qed.

Lemma sum_no_contrast (X : list R) (K0 : R) :
  Np.sum (EM.weighted_contrast X (repeat K0 (length X)) K0
            (repeat (Ok 1) (length X)))
  = Ok 0.
Proof.
  induction X as [| x X IH]; [reflexivity | ].
  simpl. rewrite IH. fl_step. f_equal. ring.
Qed.

(** X12: when every phase has the moduli [(K0, G0)] and a positive aspect
    ratio, both self-consistent residuals vanish at the trial point
    [(K0, G0)].  The upper limits are those under which no intermediate
    binary64 result of the code overflows. *)
Theorem Berrymann_func_root_at_common_moduli (K0 G0 : R) (X : list R)
    (Alpha : Np.ref) (h : Np.heap) :
  0 < K0 <= 1e300 -> 0 < G0 <= 1e300 ->
  length (h Alpha) = length X ->
  Forall (fun a => 0 < a <= 1e100) (h Alpha) ->
  snd (EM.Berrymann_func (K0, G0) (repeat K0 (length X))
         (repeat G0 (length X)) X Alpha h)
  = Ok (Ok 0, Ok 0).
Proof.
  intros [HK _] [HG _] Hal Hrange.
  assert (Hpos : Forall (fun a => 0 < a) (h Alpha)).
  { eapply Forall_impl; [ | exact Hrange]. intros a Ha. exact (proj1 Ha). }
  unfold EM.Berrymann_func.
  rewrite PQ_vectorize_eq. cbn [snd]. unfold PQ_clamped.
  rewrite clamp_length, !repeat_length, Hal, Nat.eqb_refl.
  cbn [andb negb bind].
  rewrite <- Hal, <- (clamp_length (h Alpha)).
  rewrite (PQ_common_moduli K0 G0 (clamp (h Alpha)) HK HG
             (clamp_positive _ Hpos)).
  rewrite !map_repeat. cbn [fst snd].
  rewrite clamp_length, Hal, !sum_no_contrast. reflexivity.
Qed.

Lemma Berrymann_func_root_at_common_moduli_witness :
  snd (EM.Berrymann_func (36, 45) (repeat 36 2) (repeat 45 2) [0.9; 0.1]
         0%nat (fun _ => [1; 0.1]))
  = Ok (Ok 0, Ok 0).
Proof.
  apply (Berrymann_func_root_at_common_moduli 36 45 [0.9; 0.1] 0%nat
           (fun _ => [1; 0.1]));
    [lra | lra | reflexivity | repeat constructor; lra].
Defined.

(** ** More on the cracked-medium models *)



(** ** Granular-medium models *)

Ltac pos :=
  repeat match goal with
         | |- 0 < _ * _ => apply Rmult_lt_0_compat
         | |- 0 < _ / _ => apply Rdiv_lt_0_compat
         end;
  try lra.

Lemma hertzmindlin_moduli (K0 G0 phic Cn sigma f : R) :
  0 < K0 -> 0 < G0 -> phic < 1 -> 0 < Cn -> 0 < sigma -> 0 <= f <= 1 ->
  exists K_HM G_HM,
    GM.hertzmindlin K0 G0 phic Cn sigma f = Ok (K_HM, G_HM)
    /\ 0 < K_HM /\ 0 < G_HM.
Proof.
  intros HK HG Hp HC Hs Hf. unfold GM.hertzmindlin.
  pose proof PI_RGT_0 as Hpi.
  pose proof (poisson_below_half K0 G0 HK HG) as Hnu.
  fl_step. unfold fin. fl_div lra. fl_div lra.
  set (nu := (3 * K0 - 2 * G0) / (6 * K0 + 2 * G0)) in *.
  set (s := sigma / 1000).
  assert (Hs' : 0 < s) by (unfold s; lra).
  assert (Hd1 : 0 < 18 * (PI * PI) * ((1 - nu) * (1 - nu))) by pos.
  assert (Hd2 : 0 < 2 * (PI * PI) * ((1 - nu) * (1 - nu))) by pos.
  fl_div lra. fl_div lra.
  set (B1 := s * (Cn * Cn * ((1 - phic) * (1 - phic)) * (G0 * G0))
             / (18 * (PI * PI) * ((1 - nu) * (1 - nu)))).
  set (B2 := s * (3 * (Cn * Cn) * ((1 - phic) * (1 - phic)) * (G0 * G0))
             / (2 * (PI * PI) * ((1 - nu) * (1 - nu)))).
  assert (HB1 : 0 < B1) by (unfold B1; pos).
  assert (HB2 : 0 < B2) by (unfold B2; pos).
  unfold fpow. cbn [bind].
  rewrite (Rltb_ge B1 0), (Reqb_neq B1 0) by lra. cbn [bind].
  fl_div lra. fold B2.
  rewrite (Rltb_ge B2 0), (Reqb_neq B2 0) by lra.
  fl_step.
  do 2 eexists. split; [reflexivity | ].
  split; [apply exp_pos | ].
  apply Rmult_lt_0_compat; [ | apply exp_pos].
  apply Rdiv_lt_0_compat; [ | lra].
  assert (nu * (1 + 3 * f) < 1 / 2 * (1 + 3 * f))
    by (apply Rmult_lt_compat_r; lra).
  lra.
Qed.

(** X16: for grain moduli and an effective stress between 0.001 and
    1000000, a coordination number between 1 and 100, a critical porosity in
    [[0, 1)] and a shear factor in [[0, 1]], [hertzmindlin] returns positive
    moduli.  In that range no intermediate binary64 result of the code
    overflows or underflows. *)
Theorem hertzmindlin_positive (K0 G0 phic Cn sigma f : R) :
  0.001 <= K0 <= 1000000 -> 0.001 <= G0 <= 1000000 -> 0 <= phic < 1 ->
  1 <= Cn <= 100 -> 0.001 <= sigma <= 1000000 -> 0 <= f <= 1 ->
  exists K_HM G_HM,
    GM.hertzmindlin K0 G0 phic Cn sigma f = Ok (K_HM, G_HM)
    /\ 0 < K_HM /\ 0 < G_HM.
Proof. intros HK HG Hp HC Hs Hf. apply hertzmindlin_moduli; lra. Qed.

Lemma hertzmindlin_positive_witness :
  exists K_HM G_HM,
    GM.hertzmindlin 36 45 0.4 9 10 0.5 = Ok (K_HM, G_HM)
    /\ 0 < K_HM /\ 0 < G_HM.
Proof. apply hertzmindlin_positive; lra. Defined.


(** * Binary64 numbers *)

Section Binary64.
Import PrimFloat FloatOps FloatAxioms SpecFloat F64.
Local Open Scope float_scope.

(** ** The classes of a number, read off its specification *)

Lemma SFeqb_refl_finite (s : bool) (m : positive) (e : Z) :
  SFeqb (S754_finite s m e) (S754_finite s m e) = true.
Proof.
  unfold SFeqb, SFcompare.
  rewrite Z.compare_refl, Pos.compare_cont_refl. destruct s; reflexivity.
Qed.

Lemma is_nan_spec (x : float) :
  is_nan x = match Prim2SF x with S754_nan => true | _ => false end.
Proof.
  unfold is_nan. rewrite eqb_spec.
  destruct (Prim2SF x) as [s | s | | s m e].
  - reflexivity.
  - destruct s; reflexivity.
  - reflexivity.
  - now rewrite SFeqb_refl_finite.
Qed.

Lemma is_zero_spec (x : float) :
  is_zero x = match Prim2SF x with S754_zero _ => true | _ => false end.
Proof.
  unfold is_zero. rewrite eqb_spec.
  change (Prim2SF zero) with (S754_zero false).
  destruct (Prim2SF x) as [s | s | | s m e]; try reflexivity;
    destruct s; reflexivity.
Qed.

Lemma is_infinity_spec (x : float) :
  is_infinity x
  = match Prim2SF x with S754_infinity _ => true | _ => false end.
Proof.
  unfold is_infinity. rewrite eqb_spec, abs_spec.
  change (Prim2SF infinity) with (S754_infinity false).
  destruct (Prim2SF x) as [s | s | | s m e]; reflexivity.
Qed.

Lemma is_finite_spec (x : float) :
  is_finite x
  = match Prim2SF x with
    | S754_zero _ | S754_finite _ _ _ => true
    | _ => false
    end.
Proof.
  unfold is_finite. rewrite is_nan_spec, is_infinity_spec.
  destruct (Prim2SF x); reflexivity.
Qed.

(** ** Operations that are exact *)

Lemma shr_shifted (m : positive) (e : Z) :
  fexp prec emax (Z.pos (digits2_pos m) + e) = e ->
  shr_fexp prec emax (Z.pos (4503599627370496 * m)) (e + -52) loc_Exact
  = ({| shr_m := Z.pos m; shr_r := false; shr_s := false |}, e).
Proof.
  intros Hc. unfold shr_fexp.
  cbn [Pos.mul Zdigits2 digits2_pos].
  rewrite !Pos2Z.inj_succ.
  replace (_ + (e + -52))%Z with (Z.pos (digits2_pos m) + e)%Z by lia.
  rewrite Hc.
  replace (e - (e + -52))%Z with 52%Z by lia.
  unfold shr. cbn [iter_pos shr_record_of_loc shr_1 orb].
  f_equal. lia.
Qed.

Lemma shr_settled (m : positive) (e : Z) :
  fexp prec emax (Z.pos (digits2_pos m) + e) = e ->
  shr_fexp prec emax (Z.pos m) e loc_Exact
  = ({| shr_m := Z.pos m; shr_r := false; shr_s := false |}, e).
Proof.
  intros Hc. unfold shr_fexp. cbn [Zdigits2]. rewrite Hc, Z.sub_diag.
  reflexivity.
Qed.

(** A product with 1 is the other factor. *)
Lemma mul_one_r (x : float) : x * 1 = x.
Proof.
  apply Prim2SF_inj. rewrite mul_spec.
  pose proof (Prim2SF_valid x) as Hv.
  change (Prim2SF 1) with (S754_finite false 4503599627370496 (-52)).
  destruct (Prim2SF x) as [s | s | | s m e]; try reflexivity.
  - destruct s; reflexivity.
  - destruct s; reflexivity.
  - unfold SF64mul, SFmul. rewrite xorb_false_r.
    cbn [valid_binary] in Hv. unfold bounded, canonical_mantissa in Hv.
    apply andb_prop in Hv. destruct Hv as [Hc He].
    apply Z.eqb_eq in Hc.
    unfold binary_round_aux. rewrite Pos.mul_comm.
    rewrite (shr_shifted m e Hc).
    cbn [shr_m loc_of_shr_record round_nearest_even].
    rewrite (shr_settled m e Hc). cbn [shr_m]. rewrite He. reflexivity.
Qed.

(** A finite number minus itself is [+0]. *)
Lemma sub_diag (x : float) : is_finite x = true -> x - x = 0.
Proof.
  intros Hx. rewrite is_finite_spec in Hx.
  apply Prim2SF_inj. rewrite sub_spec.
  change (Prim2SF 0) with (S754_zero false).
  destruct (Prim2SF x) as [s | s | | s m e]; try discriminate.
  - destruct s; reflexivity.
  - unfold SF64sub, SFsub. rewrite Z.sub_diag. reflexivity.
Qed.

(** A finite number times zero is a zero. *)
Lemma mul_zero_r (x : float) : is_finite x = true -> is_zero (x * 0) = true.
Proof.
  intros Hx. rewrite is_finite_spec in Hx.
  rewrite is_zero_spec, mul_spec.
  change (Prim2SF 0) with (S754_zero false).
  destruct (Prim2SF x) as [s | s | | s m e]; try discriminate; reflexivity.
Qed.

(** A zero divided by a number that is neither zero nor [nan] is a zero. *)
Lemma div_zero_l (z d : float) :
  is_zero z = true -> is_zero d = false -> is_nan d = false ->
  is_zero (z / d) = true.
Proof.
  rewrite !is_zero_spec, is_nan_spec, div_spec.
  destruct (Prim2SF z) as [sz | sz | | sz mz ez]; try discriminate.
  destruct (Prim2SF d) as [sd | sd | | sd md ed]; try discriminate;
    reflexivity.
Qed.

(** 1 minus a zero is 1. *)
Lemma one_sub_zero (z : float) : is_zero z = true -> 1 - z = 1.
Proof.
  rewrite is_zero_spec. intros Hz.
  apply Prim2SF_inj. rewrite sub_spec.
  change (Prim2SF 1) with (S754_finite false 4503599627370496 (-52)).
  destruct (Prim2SF z) as [sz | sz | | sz mz ez]; try discriminate.
  reflexivity.
Qed.

(** ** Results that are finite have finite operands *)

Lemma mul_finite (x y : float) :
  is_finite (x * y) = true -> is_finite x = true /\ is_finite y = true.
Proof.
  rewrite !is_finite_spec, mul_spec.
  destruct (Prim2SF x) as [sx | sx | | sx mx ex];
    destruct (Prim2SF y) as [sy | sy | | sy my ey];
    cbn; try discriminate; auto.
Qed.

Lemma sub_finite (x y : float) :
  is_finite (x - y) = true -> is_finite x = true /\ is_finite y = true.
Proof.
  rewrite !is_finite_spec, sub_spec.
  destruct (Prim2SF x) as [sx | sx | | sx mx ex];
    destruct (Prim2SF y) as [sy | sy | | sy my ey];
    cbn; try discriminate; auto;
    destruct sx, sy; cbn; try discriminate; auto.
Qed.

Lemma finite_not_infinity (x : float) :
  is_finite x = true -> is_infinity x = false.
Proof.
  rewrite is_finite_spec, is_infinity_spec.
  destruct (Prim2SF x); try discriminate; reflexivity.
Qed.

Lemma finite_not_nan (x : float) : is_finite x = true -> is_nan x = false.
Proof.
  rewrite is_finite_spec, is_nan_spec.
  destruct (Prim2SF x); try discriminate; reflexivity.
Qed.

(** ** The dry-crack model without cracks, on binary64 numbers *)

(** The lifted operations on numbers that were returned. *)
Lemma padd_ret (a b : float) : (Return a + Return b)%py = Return (a + b).
Proof. reflexivity. Qed.

Lemma psub_ret (a b : float) : (Return a - Return b)%py = Return (a - b).
Proof. reflexivity. Qed.

Lemma pmul_ret (a b : float) : (Return a * Return b)%py = Return (a * b).
Proof. reflexivity. Qed.

Lemma pdiv_ret (a b : float) :
  is_zero b = false -> (Return a / Return b)%py = Return (a / b).
Proof. intros Hb. unfold pdiv. cbn [pbind]. now rewrite Hb. Qed.

Lemma psqr_ret (a : float) :
  is_finite (a * a) = true -> psqr (Return a) = Return (a * a).
Proof.
  intros Ha. unfold psqr. cbn [pbind].
  now rewrite (finite_not_infinity _ Ha).
Qed.

(** A correction term with a zero numerator leaves the modulus as it is. *)
Lemma no_crack_correction (M a d : float) :
  is_finite a = true -> regular d = true ->
  (Return M * (Return 1 - Return (a * 0)%float / Return d))%py = Return M.
Proof.
  intros Ha Hd. unfold regular in Hd. apply andb_prop in Hd.
  destruct Hd as [Hfin Hnz]. apply negb_true_iff in Hnz.
  rewrite (pdiv_ret _ _ Hnz), psub_ret, pmul_ret.
  rewrite (one_sub_zero (a * 0 / d)).
  - now rewrite mul_one_r.
  - apply div_zero_l; [now apply mul_zero_r | exact Hnz | ].
    now apply finite_not_nan.
Qed.

(** C9, as the code has it on binary64 numbers: without cracks
    [OConnell_Budiansky] returns exactly [(K0, G0)] whenever the Poisson
    ratio [nu0] is computed without a division by zero, the numerators of
    the two correction terms do not overflow and their denominators
    [9*(1-2*nu0)] and [45*(2-nu0)] are finite and not zero. *)
Theorem OConnell_Budiansky_no_cracks (K0 G0 : float) :
  let nu0 := (3 * K0 - 2 * G0) / (6 * K0 + 2 * G0) in
  is_zero (6 * K0 + 2 * G0) = false ->
  is_finite (16 * (1 - nu0 * nu0)) = true ->
  regular (9 * (1 - 2 * nu0)) = true ->
  is_finite (32 * (1 - nu0) * (5 - nu0)) = true ->
  regular (45 * (2 - nu0)) = true ->
  F64.OConnell_Budiansky K0 G0 0 = F64.Return (K0, G0).
Proof.
  intros nu0 Hd0 Ha Hd Hb Hd'. unfold F64.OConnell_Budiansky, num.
  assert (Hsq : is_finite (nu0 * nu0) = true).
  { apply mul_finite in Ha. destruct Ha as [_ Ha].
    now apply sub_finite in Ha. }
  rewrite !pmul_ret, !psub_ret, !padd_ret, (pdiv_ret _ _ Hd0). fold nu0.
  cbn [pbind].
  change (pdiv (Return (16 * 0)) (Return 9)) with (Return 0).
  rewrite psub_ret, pmul_ret.
  change (1 - 0) with 1. rewrite mul_one_r. cbn [pbind].
  rewrite (psqr_ret nu0 Hsq).
  repeat first [rewrite psub_ret | rewrite pmul_ret].
  rewrite (no_crack_correction K0 _ _ Ha Hd). cbn [pbind].
  rewrite (no_crack_correction G0 _ _ Hb Hd'). reflexivity.
Qed.

Lemma OConnell_Budiansky_no_cracks_witness :
  F64.OConnell_Budiansky 36 45 0 = F64.Return (36, 45).
Proof. apply (OConnell_Budiansky_no_cracks 36 45); reflexivity. Defined.

(** With [K0 = 36] and [G0 = 1e-15] (the nearest binary64 number) the
    Poisson ratio rounds to 0.5: line 464 divides zero by zero and the call
    raises. *)
Lemma OConnell_Budiansky_tiny_shear_raises :
  (0 <? 36) = true /\ (0 <? 0x1.203af9ee75616p-50) = true
  /\ F64.OConnell_Budiansky 36 0x1.203af9ee75616p-50 0
     = F64.Raise F64.ZeroDivisionError.
Proof. repeat split; reflexivity. Qed.

(** ** The Hashin-Shtrikman bounds on binary64 numbers *)

(** C10: any [bound] other than the exact string ['upper'] runs the
    expressions of the [else] branch, lines 98 to 101, and their result or
    exception is the result of the call; ['lower'] is one such string among
    all others. *)
Theorem HS_bound_fallthrough (f K1 K2 G1 G2 : float) (bound : string) :
  bound <> "upper"%string ->
  F64.HS f K1 K2 G1 G2 bound
  = (K <~ (K2 + f / (pinv (K1 - K2) + (1 - f) * pinv (K2 + 4 * G2 / 3)))%py ;;
     Temp <~ ((K2 + 2 * G2) / (5 * G2 * (K2 + 4 * G2 / 3)))%py ;;
     G <~ (G2 + f / (pinv (G1 - G2) + 2 * (1 - f) * Temp))%py ;;
     Return (K, G))
  /\ F64.HS f K1 K2 G1 G2 bound = F64.HS f K1 K2 G1 G2 "lower".
Proof.
  intros Hb. apply String.eqb_neq in Hb. unfold F64.HS. rewrite Hb.
  split; reflexivity.
Qed.

Lemma HS_bound_fallthrough_witness :
  F64.HS 0.5 3 1 2 1 "Upper"
  = (K <~ (1 + 0.5 / (pinv (3 - 1) + (1 - 0.5) * pinv (1 + 4 * 1 / 3)))%py ;;
     Temp <~ ((1 + 2 * 1) / (5 * 1 * (1 + 4 * 1 / 3)))%py ;;
     G <~ (1 + 0.5 / (pinv (2 - 1) + 2 * (1 - 0.5) * Temp))%py ;;
     Return (K, G))
  /\ F64.HS 0.5 3 1 2 1 "Upper" = F64.HS 0.5 3 1 2 1 "lower".
Proof. apply (HS_bound_fallthrough 0.5 3 1 2 1 "Upper"). discriminate. Defined.

(** The reciprocal of the difference of a finite number with itself
    raises. *)
Lemma pinv_sub_diag (x : float) :
  is_finite x = true -> pinv (x - x)%py = Raise ZeroDivisionError.
Proof.
  intros Hx. unfold pinv, psub, plift2, num. cbn [pbind].
  now rewrite (sub_diag x Hx).
Qed.




(** ** The averages on binary64 numbers *)


End Binary64.
